(** * Manifolio: Kelly bet sizing (lib/calculate.ts, lib/probability.ts)

    A shallow embedding of the bet-sizing core.  The TypeScript code computes
    on the JavaScript [number] type.  The embedding is written once, over an
    interface [JSNumber] of the operations the code applies to numbers, and
    is read at two instances:

    - [Float64.float_number]: IEEE 754 binary64, the arithmetic a JavaScript
      engine performs.  It is executable, and every concrete run below is
      evaluated at this instance.
    - [Ideal.real_number]: the real numbers, the exact arithmetic of which
      binary64 is the rounded version.  Properties stated "up to floating
      tolerance" are stated as equalities at this instance. *)

From Stdlib Require Import List String Bool ZArith QArith Floats Uint63.
From Stdlib Require Import Reals Lra Lia.
Import ListNotations.

Set Implicit Arguments.

(** ** The JavaScript number interface *)

Declare Scope js_scope.
Delimit Scope js_scope with js.

Class JSNumber (num : Type) : Type := {
  (** a decimal literal of the source, given as the fraction it denotes *)
  lit : Q -> num;
  add : num -> num -> num;
  sub : num -> num -> num;
  mul : num -> num -> num;
  div : num -> num -> num;
  (** unary minus *)
  neg : num -> num;
  (** [Math.sqrt], [Math.abs], [Math.min], [Math.max] *)
  Math_sqrt : num -> num;
  Math_abs : num -> num;
  Math_min : num -> num -> num;
  Math_max : num -> num -> num;
  (** [a < b]; the source's [a > b] is [ltb b a] *)
  ltb : num -> num -> bool;
  (** [a === b] *)
  strict_eqb : num -> num -> bool;
  (** truthiness of a number: [!x] is [negb (truthy x)] *)
  truthy : num -> bool;
  (** key comparison of [Map] (SameValueZero) and the key a [Map] stores *)
  same_value_zero : num -> num -> bool;
  map_key : num -> num
}.

Infix "+" := add : js_scope.
Infix "-" := sub : js_scope.
Infix "*" := mul : js_scope.
Infix "/" := div : js_scope.
Notation "- x" := (neg x) : js_scope.
Infix "<?" := ltb (at level 70, no associativity) : js_scope.
Notation "x >? y" := (ltb y x) (at level 70, no associativity) : js_scope.
Infix "===" := strict_eqb (at level 70, no associativity) : js_scope.

(** ** The binary64 instance *)

Module Float64.

Definition of_Z (z : Z) : float :=
  match z with
  | Z0 => PrimFloat.zero
  | Zpos _ => PrimFloat.of_uint63 (Uint63.of_Z z)
  | Zneg p => PrimFloat.opp (PrimFloat.of_uint63 (Uint63.of_Z (Zpos p)))
  end.

(** A decimal literal [n/d] with [n] and [d] below [2^53] is the correctly
    rounded quotient of two exactly represented integers, which is the
    binary64 value nearest to the literal: the value the JavaScript parser
    produces. *)
Definition of_Q (q : Q) : float :=
  PrimFloat.div (of_Z (Qnum q)) (of_Z (Zpos (Qden q))).

(** [Math.max]: NaN if either argument is NaN, and [+0] above [-0]. *)
Definition max (a b : float) : float :=
  if PrimFloat.is_nan a then a
  else if PrimFloat.is_nan b then b
  else if PrimFloat.ltb a b then b
  else if PrimFloat.ltb b a then a
  else if PrimFloat.get_sign a then b else a.

(** [Math.min]: NaN if either argument is NaN, and [-0] below [+0]. *)
Definition min (a b : float) : float :=
  if PrimFloat.is_nan a then a
  else if PrimFloat.is_nan b then b
  else if PrimFloat.ltb a b then a
  else if PrimFloat.ltb b a then b
  else if PrimFloat.get_sign a then a else b.

(** [0], [-0] and [NaN] are the falsy numbers. *)
Definition truthy (x : float) : bool :=
  negb (PrimFloat.is_zero x || PrimFloat.is_nan x).

Definition same_value_zero (a b : float) : bool :=
  PrimFloat.eqb a b || (PrimFloat.is_nan a && PrimFloat.is_nan b).

(** [Map.prototype.set] stores the key [-0] as [+0]. *)
Definition map_key (k : float) : float :=
  if PrimFloat.is_zero k then PrimFloat.zero else k.

#[global] Instance float_number : JSNumber float := {
  lit := of_Q;
  add := PrimFloat.add;
  sub := PrimFloat.sub;
  mul := PrimFloat.mul;
  div := PrimFloat.div;
  neg := PrimFloat.opp;
  Math_sqrt := PrimFloat.sqrt;
  Math_abs := PrimFloat.abs;
  Math_min := min;
  Math_max := max;
  ltb := PrimFloat.ltb;
  strict_eqb := PrimFloat.eqb;
  truthy := truthy;
  same_value_zero := same_value_zero;
  map_key := map_key
}.

End Float64.

(** ** The exact instance *)

(** Over the reals there is no NaN and no Infinity, and division is total
    ([x / 0 = 0]), as is the square root (0 on a negative argument): where
    the code divides by zero or takes the root of a negative number it
    yields NaN or Infinity, and this instance does not describe it.  A
    property read at this instance is stated under hypotheses that keep the
    code away from such operations; rounding is left out throughout. *)

Module Ideal.

Definition Rltb (a b : R) : bool := if Rlt_dec a b then true else false.
Definition Reqb (a b : R) : bool := if Req_dec_T a b then true else false.

#[global] Instance real_number : JSNumber R := {
  lit := Q2R;
  add := Rplus;
  sub := Rminus;
  mul := Rmult;
  div := Rdiv;
  neg := Ropp;
  Math_sqrt := R_sqrt.sqrt;
  Math_abs := Rabs;
  Math_min := Rmin;
  Math_max := Rmax;
  ltb := Rltb;
  strict_eqb := Reqb;
  truthy := fun x => negb (Reqb x 0%R);
  same_value_zero := Reqb;
  map_key := fun k => k
}.

End Ideal.

(** ** lib/calculate.ts: odds, naive Kelly, differentiation, root finding *)

Inductive Outcome : Type := YES | NO.

Section Calculate.

Context {num : Type} {JS : JSNumber num}.
Local Open Scope js_scope.

Record BetRecommendation : Type := {
  amount : num;
  outcome : Outcome
}.

Record BetRecommendationFull : Type := {
  full_amount : num;
  full_outcome : Outcome;
  shares : num;
  pAfter : num
}.

(** A thrown [Error], with its message. *)
Inductive Thrown (A : Type) : Type :=
| Returns (a : A)
| Throws (message : string).
Arguments Returns {A} a.
Arguments Throws {A} message.

(** [convertOdds({from, to, value})].  The tags are the strings the
    function receives at run time; [OddsType] admits three of them. *)
Definition convertOdds (from to : string) (value : num) : Thrown num :=
  if String.eqb from to then Returns value
  else
    let decimalOdds :=
      if String.eqb from "decimalOdds" then Returns value
      else if String.eqb from "englishOdds" then Returns (value + lit 1)
      else if String.eqb from "impliedProbability" then Returns (lit 1 / value)
      else Throws ("Invalid 'from' value: " ++ from) in
    match decimalOdds with
    | Throws m => Throws m
    | Returns decimalOdds =>
        if String.eqb to "decimalOdds" then Returns decimalOdds
        else if String.eqb to "englishOdds" then Returns (decimalOdds - lit 1)
        else if String.eqb to "impliedProbability" then Returns (lit 1 / decimalOdds)
        else Throws ("Invalid 'to' value: " ++ to)
    end.

Definition OddsType (tag : string) : Prop :=
  tag = "decimalOdds"%string \/ tag = "englishOdds"%string
  \/ tag = "impliedProbability"%string.

(** [calculateNaiveKellyFraction({marketProb, estimatedProb, deferenceFactor})] *)
Definition calculateNaiveKellyFraction
    (marketProb estimatedProb deferenceFactor : num) : num * Outcome :=
  let outcome := if estimatedProb >? marketProb then YES else NO in
  let fraction :=
    deferenceFactor
    * (Math_abs (estimatedProb - marketProb) / (lit 1 - marketProb)) in
  let clampedFraction := Math_min (Math_max fraction (lit 0)) (lit 1) in
  (clampedFraction, outcome).

(** [calculateNaiveKellyBet({bankroll, ...fractionOnlyProps})] *)
Definition calculateNaiveKellyBet
    (marketProb estimatedProb deferenceFactor bankroll : num)
    : BetRecommendation :=
  let '(fraction, outcome) :=
    calculateNaiveKellyFraction marketProb estimatedProb deferenceFactor in
  {| amount := bankroll * fraction; outcome := outcome |}.

(** [D(f, x, h)]: central difference.  [f] is awaited twice, in this
    order; the model takes the functions awaited as functions of their
    argument. *)
Definition D (f : num -> num) (x h : num) : num :=
  let fPlus := f (x + h) in
  let fMinus := f (x - h) in
  (fPlus - fMinus) / (lit 2 * h).

(** The default [h = 1e-3] of [D]. *)
Definition D_default_h : num := lit (1 # 1000).

(** One pass through the body of [findRoot]'s loop up to the convergence
    test (lines 149-158): the Newton step from [x], moved to a bound when
    it falls outside [lowerBound, upperBound]. *)
Definition newtonStep (f : num -> num) (lowerBound upperBound x : num) : num :=
  let fx := f x in
  let dfx := D f x D_default_h in
  let xNext := x - fx / dfx in
  if (xNext <? lowerBound) || (xNext >? upperBound)
  then (if xNext <? lowerBound then lowerBound else upperBound)
  else xNext.

(** How [findRoot] returns: from inside the loop, in iteration [i], after
    logging "Found root solution"; or after the loop, with the last
    estimate. *)
Inductive RootSearch : Type :=
| FoundRoot (i : nat) (xNext : num)
| LastEstimate (x : num).

Definition root (r : RootSearch) : num :=
  match r with
  | FoundRoot _ xNext => xNext
  | LastEstimate x => x
  end.

(** The loop [for (let i = 0; i < iterations; i++)], with [remaining]
    passes left to run. *)
Fixpoint findRoot_loop (f : num -> num) (lowerBound upperBound tolerance : num)
    (remaining : nat) (i : nat) (x : num) : RootSearch :=
  match remaining with
  | O => LastEstimate x
  | S remaining' =>
      let xNext := newtonStep f lowerBound upperBound x in
      if Math_abs (xNext - x) <? tolerance
      then FoundRoot i xNext
      else findRoot_loop f lowerBound upperBound tolerance remaining' (S i) xNext
  end.

Definition findRoot_search (f : num -> num) (lowerBound upperBound : num)
    (iterations : nat) (tolerance : num) : RootSearch :=
  let x := (lowerBound + upperBound) / lit 2 in
  findRoot_loop f lowerBound upperBound tolerance iterations 0 x.

(** [findRoot(f, lowerBound, upperBound, iterations, tolerance)] *)
Definition findRoot (f : num -> num) (lowerBound upperBound : num)
    (iterations : nat) (tolerance : num) : num :=
  root (findRoot_search f lowerBound upperBound iterations tolerance).

(** The defaults [iterations = 10] and [tolerance = 1e-6]. *)
Definition default_iterations : nat := 10.
Definition default_tolerance : num := lit (1 # 1000000).

End Calculate.

Arguments Returns {A} a.
Arguments Throws {A} message.
Arguments BetRecommendation : clear implicits.
Arguments BetRecommendationFull : clear implicits.
Arguments RootSearch : clear implicits.

(** ** lib/probability.ts: payout distributions *)

Section Probability.

Context {num : Type} {JS : JSNumber num}.
Local Open Scope js_scope.

(** [Map<number, number>], in insertion order. *)
Definition NumMap : Type := list (num * num).

(** [PMF] and [CDF] are both [Map<number, number>]. *)
Definition PMF : Type := NumMap.
Definition CDF : Type := NumMap.

Fixpoint map_get (m : NumMap) (k : num) : option num :=
  match m with
  | [] => None
  | (k', v') :: m' => if same_value_zero k' k then Some v' else map_get m' k
  end.

(** [m.set(k, v)]: an existing key keeps its place, a new one goes last. *)
Fixpoint map_set (m : NumMap) (k v : num) : NumMap :=
  match m with
  | [] => [(map_key k, v)]
  | (k', v') :: m' =>
      if same_value_zero k' k then (k', v) :: m'
      else (k', v') :: map_set m' k v
  end.

(** [new Map(entries)]: the entries are set in order, a later entry
    replacing an earlier one with the same key. *)
Definition map_new (entries : list (num * num)) : NumMap :=
  fold_left (fun m e => map_set m (fst e) (snd e)) entries [].

(** [v || 0] for the result [v] of [Map.prototype.get]. *)
Definition or_zero (v : option num) : num :=
  match v with
  | Some v => if truthy v then v else lit 0
  | None => lit 0
  end.

Record PositionModel : Type := {
  probability : num;
  payout : num;
  loan : option num
}.

(** The [{ payout, probability }] objects of the cartesian enumeration. *)
Record BetOutcome : Type := {
  outcome_payout : num;
  outcome_probability : num
}.

Definition convolveDistributions (pmf1 pmf2 : PMF) : PMF :=
  fold_left
    (fun result e1 =>
       fold_left
         (fun result e2 =>
            let combinedPayout := fst e1 + fst e2 in
            let combinedProb := snd e1 * snd e2 in
            map_set result combinedPayout
              (or_zero (map_get result combinedPayout) + combinedProb))
         pmf2 result)
    pmf1 [].

Definition cartesianProduct {T : Type} (allEntries : list (list T))
    : list (list T) :=
  fold_left
    (fun results entries =>
       flat_map (fun result => map (fun entry => result ++ [entry]) entries)
                results)
    allEntries [[]].

(** The enumeration shared by [computePayoutPMFCartesian] and
    [computeCumulativeDistributionCartesian]. *)
Definition outcomeProbsAndPayouts (bets : list PositionModel)
    : list BetOutcome :=
  let outcomes :=
    cartesianProduct
      (map (fun bet =>
              [ {| outcome_payout := lit 0;
                   outcome_probability := lit 1 - probability bet |};
                {| outcome_payout := payout bet;
                   outcome_probability := probability bet |} ])
           bets) in
  map (fun outcome =>
         let probability :=
           fold_left (fun acc betOutcome => acc * outcome_probability betOutcome)
                     outcome (lit 1) in
         let payout :=
           fold_left (fun acc betOutcome => acc + outcome_payout betOutcome)
                     outcome (lit 0) in
         {| outcome_payout := payout; outcome_probability := probability |})
      outcomes.

Definition computePayoutPMFCartesian (bets : list PositionModel) : PMF :=
  fold_left
    (fun combinedDistribution outcome =>
       map_set combinedDistribution (outcome_payout outcome)
         (or_zero (map_get combinedDistribution (outcome_payout outcome))
          + outcome_probability outcome))
    (outcomeProbsAndPayouts bets) [].

Definition computePayoutPMFConvolution (bets : list PositionModel) : PMF :=
  fold_left
    (fun combinedDistribution bet =>
       let betDistribution :=
         map_new [ (lit 0, lit 1 - probability bet);
                   (payout bet, probability bet) ] in
       convolveDistributions combinedDistribution betDistribution)
    bets (map_new [ (lit 0, lit 1) ]).

(** [computePayoutDistribution(bets, method)]; [method] defaults to
    ["convolution"]. *)
Definition computePayoutDistribution (bets : list PositionModel)
    (method : string) : PMF :=
  if String.eqb method "convolution"
  then computePayoutPMFConvolution bets
  else computePayoutPMFCartesian bets.

Definition computeExpectedValue (pmf : PMF) : num :=
  fold_left (fun expectedValue e => expectedValue + fst e * snd e) pmf (lit 0).

Definition integrateOverPmf (f : num -> num) (pmf : PMF) : num :=
  fold_left (fun result e => result + f (fst e) * snd e) pmf (lit 0).

(** The sum of the masses of a PMF, added in map order from [0]. *)
Definition total_mass (pmf : PMF) : num :=
  fold_left (fun acc e => acc + snd e) pmf (lit 0).

(** [outcomeProbsAndPayouts.sort((a, b) => a.payout - b.payout)].  The
    language prescribes a stable sort; it is written here as an insertion
    sort, in which an element moves behind those its comparator puts it
    strictly after.  For payouts that are not NaN the comparator is
    consistent and every stable sort returns this list.  With a NaN payout
    (positions paying both Infinity and -Infinity) the comparator is not
    consistent, the language leaves the order to the engine, and this
    definition does not describe it. *)
Fixpoint insert_by_payout (a : BetOutcome) (sorted : list BetOutcome)
    : list BetOutcome :=
  match sorted with
  | [] => [a]
  | b :: rest =>
      if (outcome_payout a - outcome_payout b) >? lit 0
      then b :: insert_by_payout a rest
      else a :: b :: rest
  end.

Definition sort_by_payout (l : list BetOutcome) : list BetOutcome :=
  fold_right insert_by_payout [] l.

(** The loop of [computeCumulativeDistributionCartesian] over the sorted
    outcomes: the map and [cumulativeProb]. *)
Definition cumulate (sorted : list BetOutcome) (start : CDF * num)
    : CDF * num :=
  fold_left
    (fun state outcome =>
       let cumulativeProb := snd state + outcome_probability outcome in
       (map_set (fst state) (outcome_payout outcome) cumulativeProb,
        cumulativeProb))
    sorted start.

Definition computeCumulativeDistributionCartesian (bets : list PositionModel)
    : CDF :=
  fst (cumulate (sort_by_payout (outcomeProbsAndPayouts bets)) ([], lit 0)).

(** [computeCumulativeDistribution(bets, method)]; [method] defaults to
    ["cartesian"]. *)
Definition computeCumulativeDistribution (bets : list PositionModel)
    (method : string) : Thrown CDF :=
  if String.eqb method "convolution"
  then Throws "Not implemented"
  else Returns (computeCumulativeDistributionCartesian bets).

End Probability.

Arguments NumMap : clear implicits.
Arguments PMF : clear implicits.
Arguments CDF : clear implicits.
Arguments PositionModel : clear implicits.
Arguments BetOutcome : clear implicits.

(** ** lib/calculate.ts: the liquidity-aware optimizers *)

Section FullKelly.

Context {num : Type} {JS : JSNumber num}.
Local Open Scope js_scope.

(** The collaborators of lib/market-utils.ts, which this development does
    not own.  They are taken as functions of their arguments: a call with
    the same arguments is answered the same way. *)

(** What [getMarket()] resolves to; [probability] may be missing. *)
Record FullMarket : Type := {
  market_probability : option num
}.

(** What [fetchMarketCached] resolves to; [getMarket()] may resolve to
    [undefined]. *)
Record CachedMarket : Type := {
  getMarket : option FullMarket
}.

(** What [getBinaryCpmmBetInfoWrapper] resolves to. *)
Record BetInfo : Type := {
  newShares : num;
  probAfter : option num
}.

Variable fetchMarketCached : string -> CachedMarket.
Variable getBinaryCpmmBetInfoWrapper : Outcome -> num -> string -> BetInfo.

(** [(await market.getMarket())?.probability] *)
Definition startingMarketProb_of (market : CachedMarket) : option num :=
  match getMarket market with
  | Some m => market_probability m
  | None => None
  end.

(** [!startingMarketProb] *)
Definition not_truthy (v : option num) : bool :=
  match v with
  | Some v => negb (truthy v)
  | None => true
  end.

(** [pAfter ?? 0] *)
Definition or_else_zero (v : option num) : num :=
  match v with
  | Some v => v
  | None => lit 0
  end.

Definition outcome_is_YES (o : Outcome) : bool :=
  match o with YES => true | NO => false end.

(** The closure [englishOdds] of both optimizers. *)
Definition englishOdds (outcome : Outcome) (marketSlug : string)
    (betEstimate : num) : num :=
  let newShares :=
    newShares (getBinaryCpmmBetInfoWrapper outcome betEstimate marketSlug) in
  (newShares - betEstimate) / betEstimate.

(** The closure [calcBetEstimate] of [calculateFullKellyBet]. *)
Definition calcBetEstimate (estimatedProb deferenceFactor : num)
    (marketSlug : string) (bankroll startingMarketProb : num)
    (outcome : Outcome) (betEstimate : num) : num :=
  let englishOddsEstimate := englishOdds outcome marketSlug betEstimate in
  let englishOddsDerivative :=
    D (englishOdds outcome marketSlug) betEstimate (lit (1 # 10)) in
  let pYes :=
    estimatedProb * deferenceFactor
    + (lit 1 - deferenceFactor) * startingMarketProb in
  let qYes := lit 1 - pYes in
  let pWin := if outcome_is_YES outcome then pYes else qYes in
  let qWin := lit 1 - pWin in
  let A := pWin * bankroll * englishOddsDerivative in
  let B := englishOddsEstimate - A in
  let C := - (pWin * englishOddsEstimate - qWin) in
  let f :=
    if A === lit 0 then - C / B
    else (- B + Math_sqrt (B * B - lit 4 * A * C)) / (lit 2 * A) in
  let newBetEstimate := f * bankroll in
  newBetEstimate - betEstimate.

(** The degenerate recommendation of the guard. *)
Definition noBet : BetRecommendationFull num :=
  {| full_amount := lit 0; full_outcome := YES;
     shares := lit 0; pAfter := lit 0 |}.

(** [calculateFullKellyBet({estimatedProb, deferenceFactor, marketSlug,
    bankroll})] *)
Definition calculateFullKellyBet (estimatedProb deferenceFactor : num)
    (marketSlug : string) (bankroll : num) : BetRecommendationFull num :=
  let market := fetchMarketCached marketSlug in
  let startingMarketProb := startingMarketProb_of market in
  if not_truthy startingMarketProb then noBet
  else
    let startingMarketProb := or_else_zero startingMarketProb in
    let naive :=
      calculateNaiveKellyBet startingMarketProb estimatedProb
                             deferenceFactor bankroll in
    let naiveKellyAmount := amount naive in
    let outcome := outcome naive in
    let lowerBound := lit 0 in
    let upperBound := naiveKellyAmount in
    let optimalBet :=
      findRoot
        (calcBetEstimate estimatedProb deferenceFactor marketSlug bankroll
                         startingMarketProb outcome)
        lowerBound upperBound default_iterations default_tolerance in
    let info := getBinaryCpmmBetInfoWrapper outcome optimalBet marketSlug in
    {| full_amount := optimalBet; full_outcome := outcome;
       shares := newShares info; pAfter := or_else_zero (probAfter info) |}.

(** The closure [dEVdBetBalanceOnly] of the portfolio variant. *)
Definition dEVdBetBalanceOnly (estimatedProb deferenceFactor : num)
    (marketSlug : string) (balance startingMarketProb : num)
    (outcome : Outcome) (betEstimate : num) : num :=
  let englishOddsEstimate := englishOdds outcome marketSlug betEstimate in
  let englishOddsDerivative :=
    D (englishOdds outcome marketSlug) betEstimate (lit (1 # 10)) in
  let pYes :=
    estimatedProb * deferenceFactor
    + (lit 1 - deferenceFactor) * startingMarketProb in
  let qYes := lit 1 - pYes in
  let pWin := if outcome_is_YES outcome then pYes else qYes in
  let qWin := lit 1 - pWin in
  let A := pWin * balance * englishOddsDerivative in
  let B := englishOddsEstimate - A in
  let C := - (pWin * englishOddsEstimate - qWin) in
  let f :=
    if A === lit 0 then - C / B
    else (- B + Math_sqrt (B * B - lit 4 * A * C)) / (lit 2 * A) in
  let newBetEstimate := f * balance in
  newBetEstimate - betEstimate.

(** The closure [dEVdBetIlliquidCashedOut]. *)
Definition dEVdBetIlliquidCashedOut (estimatedProb deferenceFactor : num)
    (marketSlug : string) (balance relativeIlliquidEV startingMarketProb : num)
    (outcome : Outcome) (betEstimate : num) : num :=
  let englishOddsEstimate := englishOdds outcome marketSlug betEstimate in
  let englishOddsDerivative :=
    D (englishOdds outcome marketSlug) betEstimate (lit (1 # 10)) in
  let pYes :=
    estimatedProb * deferenceFactor
    + (lit 1 - deferenceFactor) * startingMarketProb in
  let qYes := lit 1 - pYes in
  let pWin := if outcome_is_YES outcome then pYes else qYes in
  let qWin := lit 1 - pWin in
  let f := betEstimate / balance in
  let I := relativeIlliquidEV in
  let A := (pWin * englishOddsEstimate) / (lit 1 + I + f * englishOddsEstimate) in
  let B := - qWin / (lit 1 + I - f) in
  let C :=
    (pWin * f * englishOddsDerivative * balance)
    / (lit 1 + I + f * englishOddsEstimate) in
  A + B + C.

(** The closure [dEVdBet]. *)
Definition dEVdBet (estimatedProb deferenceFactor : num)
    (marketSlug : string) (balance : num) (illiquidPmf : PMF num)
    (startingMarketProb : num) (outcome : Outcome) (betEstimate : num) : num :=
  let englishOddsEstimate := englishOdds outcome marketSlug betEstimate in
  let englishOddsDerivative :=
    D (englishOdds outcome marketSlug) betEstimate (lit (1 # 10)) in
  let pYes :=
    estimatedProb * deferenceFactor
    + (lit 1 - deferenceFactor) * startingMarketProb in
  let qYes := lit 1 - pYes in
  let pWin := if outcome_is_YES outcome then pYes else qYes in
  let qWin := lit 1 - pWin in
  let f := betEstimate / balance in
  let integrand := fun I : num =>
    let A := (pWin * englishOddsEstimate) / (lit 1 + I + f * englishOddsEstimate) in
    let B := - qWin / (lit 1 + I - f) in
    let C :=
      (pWin * f * englishOddsDerivative * balance)
      / (lit 1 + I + f * englishOddsEstimate) in
    A + B + C in
  let integral := integrateOverPmf integrand illiquidPmf in
  integral.

(** The object [{ optimalBetInitial, optimalBet, optimalBetHigh }] that the
    portfolio variant writes to the console. *)
Record PortfolioRoots : Type := {
  optimalBetInitial : num;
  optimalBet : num;
  optimalBetHigh : num
}.

(** The body of [calculateFullKellyBetWithPortfolio]: what it writes with
    [console.log] on line 417 (nothing when the guard returns first), and
    what it returns. *)
Definition calculateFullKellyBetWithPortfolio_run
    (estimatedProb deferenceFactor : num) (marketSlug : string)
    (balance portfolioValue : num)
    : option PortfolioRoots * BetRecommendationFull num :=
  let illiquidEV := lit 1000 in
  let relativeIlliquidEV := illiquidEV / balance in
  let bets :=
    [ {| probability := lit (1 # 2);
         payout := relativeIlliquidEV * (lit 1 / lit (1 # 2));
         loan := None |} ] in
  let illiquidPmf := computePayoutDistribution bets "cartesian" in
  let market := fetchMarketCached marketSlug in
  let startingMarketProb := startingMarketProb_of market in
  if not_truthy startingMarketProb then (None, noBet)
  else
    let startingMarketProb := or_else_zero startingMarketProb in
    let naive :=
      calculateNaiveKellyBet startingMarketProb estimatedProb
                             deferenceFactor balance in
    let naiveKellyAmount := amount naive in
    let outcome := outcome naive in
    let lowerBound := lit 0 in
    let upperBound := naiveKellyAmount in
    let optimalBetInitial :=
      findRoot
        (dEVdBetBalanceOnly estimatedProb deferenceFactor marketSlug balance
                            startingMarketProb outcome)
        lowerBound upperBound default_iterations default_tolerance in
    let optimalBet :=
      findRoot
        (dEVdBet estimatedProb deferenceFactor marketSlug balance illiquidPmf
                 startingMarketProb outcome)
        (optimalBetInitial * lit (1 # 2)) (optimalBetInitial * lit 2)
        default_iterations default_tolerance in
    let optimalBetHigh :=
      findRoot
        (dEVdBetIlliquidCashedOut estimatedProb deferenceFactor marketSlug
                                  balance relativeIlliquidEV
                                  startingMarketProb outcome)
        (optimalBetInitial * lit (1 # 2)) (optimalBetInitial * lit 2)
        default_iterations default_tolerance in
    let info := getBinaryCpmmBetInfoWrapper outcome optimalBet marketSlug in
    (Some {| optimalBetInitial := optimalBetInitial;
             optimalBet := optimalBet;
             optimalBetHigh := optimalBetHigh |},
     {| full_amount := optimalBet; full_outcome := outcome;
        shares := newShares info; pAfter := or_else_zero (probAfter info) |}).

(** [calculateFullKellyBetWithPortfolio({estimatedProb, deferenceFactor,
    marketSlug, balance, portfolioValue})] *)
Definition calculateFullKellyBetWithPortfolio
    (estimatedProb deferenceFactor : num) (marketSlug : string)
    (balance portfolioValue : num) : BetRecommendationFull num :=
  snd (calculateFullKellyBetWithPortfolio_run estimatedProb deferenceFactor
         marketSlug balance portfolioValue).

(** The roots written to the console by that call. *)
Definition loggedRoots
    (estimatedProb deferenceFactor : num) (marketSlug : string)
    (balance portfolioValue : num) : option PortfolioRoots :=
  fst (calculateFullKellyBetWithPortfolio_run estimatedProb deferenceFactor
         marketSlug balance portfolioValue).

End FullKelly.

Arguments FullMarket : clear implicits.
Arguments CachedMarket : clear implicits.
Arguments BetInfo : clear implicits.
Arguments PortfolioRoots : clear implicits.


(** ** Sample collaborators and inputs *)

Section SampleCollaborators.

Context {num : Type} {JS : JSNumber num}.
Local Open Scope js_scope.

(** A market whose probability is [p]. *)
Definition marketWithProbability (p : num) (slug : string) : CachedMarket num :=
  {| getMarket := Some {| market_probability := Some p |} |}.

(** A market that cannot be fetched: [getMarket()] resolves to [undefined]. *)
Definition marketUnavailable (slug : string) : CachedMarket num :=
  {| getMarket := None |}.

(** A bet simulator: a constant-product market maker without fees, holding
    [y] YES shares and [n] NO shares (market probability [n / (y + n)]).
    A bet of [bet] on YES buys [y + bet - y*n/(bet + n)] shares, and
    symmetrically on NO. *)
Definition constantProductMarket (y n : num) (outcome : Outcome) (bet : num)
    (marketSlug : string) : BetInfo num :=
  match outcome with
  | YES =>
      let y' := (y * n) / (bet + n) in
      let n' := n + bet in
      {| newShares := y + bet - y'; probAfter := Some (n' / (y' + n')) |}
  | NO =>
      let n' := (y * n) / (bet + y) in
      let y' := y + bet in
      {| newShares := n + bet - n'; probAfter := Some (n' / (y' + n')) |}
  end.

End SampleCollaborators.

(** [f(x) = x + 100], in binary64 arithmetic. *)
Definition shifted (x : float) : float := PrimFloat.add x 100%float.

(** A position that wins with probability 0.5 and pays 0. *)
Definition worthlessPosition : PositionModel float :=
  {| probability := 0.5%float; payout := 0%float; loan := None |}.

(** ** Reference definitions over exact arithmetic *)

(** [x] clamped into [[0,1]]. *)
Definition clamp01 (x : R) : R :=
  if Rlt_dec x 0 then 0%R else if Rlt_dec 1 x then 1%R else x.

(** The sum of a list of reals. *)
Definition Rsum (l : list R) : R := fold_right Rplus 0%R l.

(** Whether the payout [k] occurs in a list of (payout, mass) pairs, and the
    mass the list gives it. *)
Definition present (l : list (R * R)) (k : R) : bool :=
  existsb (fun e => Ideal.Reqb (fst e) k) l.

Definition masssum (l : list (R * R)) (k : R) : R :=
  Rsum (map (fun e => if Ideal.Reqb (fst e) k then snd e else 0%R) l).

(** Two lists of pairs with the same payouts and the same mass at each. *)
Definition same_masses (l1 l2 : list (R * R)) : Prop :=
  forall k, present l1 k = present l2 k /\ masssum l1 k = masssum l2 k.

(** The statement [m.set(k, (m.get(k) || 0) + p)] that both methods run for
    each pair [(k, p)], and its iteration over a list of pairs. *)
Definition accumulate1 (m : PMF R) (e : R * R) : PMF R :=
  map_set m (fst e) (add (or_zero (map_get m (fst e))) (snd e)).

Definition accumulate (l : list (R * R)) (m : PMF R) : PMF R :=
  fold_left accumulate1 l m.

(** The pairs that [convolveDistributions] accumulates. *)
Definition pairs (l1 l2 : list (R * R)) : list (R * R) :=
  flat_map (fun e1 => map (fun e2 => (fst e1 + fst e2, snd e1 * snd e2)%R) l2) l1.

(** The two branches of a bet, as [computePayoutPMFCartesian] lists them. *)
Definition branches (bet : PositionModel R) : list (BetOutcome R) :=
  [ {| outcome_payout := lit 0;
       outcome_probability := sub (lit 1) (probability bet) |};
    {| outcome_payout := payout bet;
       outcome_probability := probability bet |} ].

Definition asPair (o : BetOutcome R) : R * R :=
  (outcome_payout o, outcome_probability o).

(** The payout and the probability of one combination of branches. *)
Definition summary (outcome : list (BetOutcome R)) : R * R :=
  (fold_left (fun acc betOutcome => add acc (outcome_payout betOutcome))
             outcome (lit 0),
   fold_left (fun acc betOutcome => mul acc (outcome_probability betOutcome))
             outcome (lit 1)).

(** The (payout, probability) pairs that the cartesian method accumulates. *)
Definition cartesianPairs (bets : list (PositionModel R)) : list (R * R) :=
  map summary (cartesianProduct (map branches bets)).

(** The mass of the two-point distribution that the convolution method
    builds for a bet: the entry for payout 0 is replaced when the bet itself
    pays 0. *)
Definition betDistribution_mass (bet : PositionModel R) : R :=
  if Req_dec_T 0 (payout bet) then probability bet else 1%R.

(** ** Reference definitions for the root finder *)

Section RootReference.

Context {num : Type} {JS : JSNumber num}.

(** The estimate after [n] passes of [findRoot]'s loop that do not return,
    starting from [x]. *)
Definition iterate (f : num -> num) (lowerBound upperBound : num) (n : nat)
    (x : num) : num :=
  Nat.iter n (newtonStep f lowerBound upperBound) x.

(** The test [Math.abs(xNext - x) < tolerance] of pass [n]. *)
Definition settles (f : num -> num) (lowerBound upperBound tolerance : num)
    (x : num) (n : nat) : bool :=
  ltb (Math_abs (sub (iterate f lowerBound upperBound (S n) x)
                     (iterate f lowerBound upperBound n x)))
      tolerance.

(** [r] compares neither below [lowerBound] nor above [upperBound]: a value
    within the bounds or, in binary64 arithmetic, NaN, which compares with
    nothing. *)
Definition not_outside (lowerBound upperBound r : num) : Prop :=
  ltb r lowerBound = false /\ ltb upperBound r = false.

End RootReference.

(** ** Reference definitions for distributions, over exact arithmetic *)

(** The product of a list of reals. *)
Definition Rprod (l : list R) : R := fold_right Rmult 1%R l.

(** The sum of [g(payout) * mass] over a list of (payout, mass) pairs. *)
Definition expectation (g : R -> R) (l : list (R * R)) : R :=
  Rsum (map (fun e => g (fst e) * snd e)%R l).

(** The sum of [probability * payout] over the positions. *)
Definition expectedPayout (bets : list (PositionModel R)) : R :=
  Rsum (map (fun bet => probability bet * payout bet)%R bets).

(** Whether some enumerated outcome pays [k], and the probability that the
    enumerated outcomes pay at most [k]. *)
Definition occurs (outcomes : list (BetOutcome R)) (k : R) : bool :=
  existsb (fun o => Ideal.Reqb (outcome_payout o) k) outcomes.

Definition cumulative (outcomes : list (BetOutcome R)) (k : R) : R :=
  Rsum (map (fun o => if Rle_dec (outcome_payout o) k
                      then outcome_probability o else 0%R) outcomes).

(** Outcomes in non-decreasing order of payout. *)
Fixpoint ascending (outcomes : list (BetOutcome R)) : Prop :=
  match outcomes with
  | [] => True
  | a :: rest =>
      Forall (fun b => (outcome_payout a <= outcome_payout b)%R) rest
      /\ ascending rest
  end.

(** * Properties *)

(** ** Exact arithmetic: odds conversion, the naive Kelly fraction, findRoot *)

Module IdealFacts.

Import Ideal.
Local Open Scope R_scope.

Lemma Rltb_true (a b : R) : Rltb a b = true <-> a < b.
Proof. unfold Rltb. destruct (Rlt_dec a b); split; intros; try easy. Qed.

Lemma Rltb_false (a b : R) : Rltb a b = false <-> b <= a.
Proof.
  unfold Rltb. destruct (Rlt_dec a b); split; intros; try easy; lra.
Qed.

Lemma Reqb_true (a b : R) : Reqb a b = true <-> a = b.
Proof. unfold Reqb. destruct (Req_dec_T a b); split; intros; try easy. Qed.

Lemma Reqb_false (a b : R) : Reqb a b = false <-> a <> b.
Proof. unfold Reqb. destruct (Req_dec_T a b); split; intros; try easy. Qed.

Lemma Reqb_refl (a : R) : Reqb a a = true.
Proof. apply Reqb_true. reflexivity. Qed.

Lemma lit_0 : lit 0 = 0.
Proof. cbn. unfold Q2R. cbn. lra. Qed.

Lemma lit_1 : lit 1 = 1.
Proof. cbn. unfold Q2R. cbn. lra. Qed.

Lemma lit_2 : lit 2 = 2.
Proof. cbn. unfold Q2R. cbn. lra. Qed.

(** The tags of [OddsType], one by one. *)
Ltac each_tag H :=
  destruct H as [H | [H | H]]; subst.

(** C3, as amended. Over exact arithmetic, for every value [v > 0] and
    every pair of odds representations [X] and [Y], [convertOdds] from [X]
    to [Y] returns a value, and converting that value back from [Y] to [X]
    returns [v].  No division by zero occurs on the way. *)
Theorem convertOdds_round_trip (X Y : string) (v : R) :
  OddsType X -> OddsType Y -> 0 < v ->
  exists w : R,
    convertOdds X Y v = Returns w /\ convertOdds Y X w = Returns v.
Proof.
  intros HX HY Hv.
  each_tag HX; each_tag HY; cbn; unfold Q2R; cbn;
    eexists; (split; [reflexivity | f_equal; field; lra]).
Qed.

Lemma convertOdds_round_trip_witness :
  exists w : R,
    convertOdds "englishOdds" "impliedProbability" 3 = Returns w
    /\ convertOdds "impliedProbability" "englishOdds" w = Returns 3.
Proof.
  apply convertOdds_round_trip; [ right; left; reflexivity
                                | right; right; reflexivity | lra ].
Defined.

Lemma clamp01_bounds (x : R) : 0 <= clamp01 x <= 1.
Proof.
  unfold clamp01. destruct (Rlt_dec x 0); [lra|].
  destruct (Rlt_dec 1 x); lra.
Qed.

Lemma min_max_is_clamp01 (x : R) : Rmin (Rmax x 0) 1 = clamp01 x.
Proof.
  unfold clamp01, Rmin, Rmax.
  destruct (Rlt_dec x 0), (Rlt_dec 1 x), (Rle_dec x 0);
    try destruct (Rle_dec 0 1); try destruct (Rle_dec x 1); lra.
Qed.

(** C4. For [marketProb] in (0,1), [estimatedProb] in [[0,1]] and
    [deferenceFactor] in [[0,1]], the fraction returned by
    [calculateNaiveKellyFraction] is
    [deferenceFactor * |estimatedProb - marketProb| / (1 - marketProb)]
    clamped into [[0,1]], it lies in [[0,1]], and the outcome is YES
    exactly when [estimatedProb > marketProb]. *)
Theorem calculateNaiveKellyFraction_spec
    (marketProb estimatedProb deferenceFactor : R) :
  0 < marketProb < 1 ->
  0 <= estimatedProb <= 1 ->
  0 <= deferenceFactor <= 1 ->
  let r := calculateNaiveKellyFraction marketProb estimatedProb deferenceFactor in
  fst r
    = clamp01 (deferenceFactor * Rabs (estimatedProb - marketProb)
               / (1 - marketProb))
  /\ 0 <= fst r <= 1
  /\ (snd r = YES <-> estimatedProb > marketProb).
Proof.
  intros Hm He Hk r.
  assert (Hfst : fst r
                 = clamp01 (deferenceFactor * Rabs (estimatedProb - marketProb)
                            / (1 - marketProb))).
  { subst r. unfold calculateNaiveKellyFraction. cbn [fst].
    rewrite lit_0, lit_1. cbn [Math_min Math_max mul div sub Math_abs real_number].
    rewrite min_max_is_clamp01. f_equal. field. lra. }
  split; [exact Hfst|]. split.
  - rewrite Hfst. apply clamp01_bounds.
  - subst r. unfold calculateNaiveKellyFraction. cbn [snd ltb real_number].
    destruct (Rltb marketProb estimatedProb) eqn:E.
    + apply Rltb_true in E. split; [intros _; lra | reflexivity].
    + apply Rltb_false in E. split; [discriminate | lra].
Qed.

Lemma calculateNaiveKellyFraction_spec_witness :
  let r := calculateNaiveKellyFraction (4 / 10) (6 / 10) (1 / 2) in
  fst r = clamp01 (1 / 2 * Rabs (6 / 10 - 4 / 10) / (1 - 4 / 10))
  /\ 0 <= fst r <= 1
  /\ (snd r = YES <-> 6 / 10 > 4 / 10).
Proof.
  apply calculateNaiveKellyFraction_spec; lra.
Defined.

(** *** findRoot over exact arithmetic *)

Lemma newtonStep_within_bounds (f : R -> R) (lowerBound upperBound x : R) :
  lowerBound <= upperBound ->
  lowerBound <= newtonStep f lowerBound upperBound x <= upperBound.
Proof.
  intros Hb. unfold newtonStep.
  set (xNext := sub x (div (f x) (D f x D_default_h))).
  cbn [ltb real_number].
  destruct (Rltb xNext lowerBound) eqn:Elo; cbn [orb].
  - lra.
  - apply Rltb_false in Elo.
    destruct (Rltb upperBound xNext) eqn:Ehi.
    + lra.
    + apply Rltb_false in Ehi. lra.
Qed.

Lemma findRoot_loop_within_bounds (f : R -> R)
    (lowerBound upperBound tolerance : R) (remaining i : nat) (x : R) :
  lowerBound <= upperBound ->
  lowerBound <= x <= upperBound ->
  lowerBound
    <= root (findRoot_loop f lowerBound upperBound tolerance remaining i x)
    <= upperBound.
Proof.
  intros Hb. revert i x.
  induction remaining as [|remaining IH]; intros i x Hx.
  - exact Hx.
  - cbn [findRoot_loop].
    pose proof (newtonStep_within_bounds f x Hb) as Hstep.
    destruct (ltb _ tolerance).
    + exact Hstep.
    + apply IH. exact Hstep.
Qed.

(** Between ordered bounds, [findRoot] returns a value within the bounds,
    for every function, iteration cap and tolerance. *)
Lemma findRoot_within_bounds (f : R -> R) (lowerBound upperBound : R)
    (iterations : nat) (tolerance : R) :
  lowerBound <= upperBound ->
  lowerBound <= findRoot f lowerBound upperBound iterations tolerance
    <= upperBound.
Proof.
  intros Hb. unfold findRoot, findRoot_search.
  apply findRoot_loop_within_bounds; [exact Hb|].
  rewrite lit_2. cbn [add div real_number]. lra.
Qed.

Lemma D_linear (c x h : R) : h <> 0 -> D (fun y : R => y - c) x h = 1.
Proof.
  intros Hh. unfold D. rewrite lit_2. cbn [add sub mul div real_number].
  field. exact Hh.
Qed.

Lemma D_default_h_nonzero : (D_default_h : R) <> 0.
Proof. unfold D_default_h. cbn. unfold Q2R. cbn. lra. Qed.

(** On [x - c] the Newton step lands on [c] from anywhere. *)
Lemma newtonStep_linear (c lowerBound upperBound x : R) :
  lowerBound <= c <= upperBound ->
  newtonStep (fun y : R => y - c) lowerBound upperBound x = c.
Proof.
  intros Hc. unfold newtonStep. rewrite D_linear by apply D_default_h_nonzero.
  cbn [ltb sub div real_number].
  replace (x - (x - c) / 1) with c by field.
  destruct (Rltb c lowerBound) eqn:Elo.
  - apply Rltb_true in Elo. lra.
  - destruct (Rltb upperBound c) eqn:Ehi.
    + apply Rltb_true in Ehi. lra.
    + reflexivity.
Qed.

Lemma findRoot_linear_exact :
  findRoot_search (fun x : R => x - 3) 0 10 default_iterations default_tolerance
  = FoundRoot 1 3.
Proof.
  unfold findRoot_search, default_iterations.
  cbn [findRoot_loop].
  rewrite !newtonStep_linear by lra.
  rewrite lit_2. unfold default_tolerance.
  cbn [ltb sub add div Math_abs lit real_number].
  unfold Q2R. cbn [Qnum Qden].
  replace (Rltb (Rabs (3 - (0 + 10) / 2)) _) with false.
  2:{ symmetry. apply Rltb_false.
      replace (3 - (0 + 10) / 2) with (-2) by field.
      rewrite Rabs_left by lra. lra. }
  replace (Rltb (Rabs (3 - 3)) _) with true.
  2:{ symmetry. apply Rltb_true. replace (3 - 3) with 0 by ring.
      rewrite Rabs_R0. lra. }
  reflexivity.
Qed.

End IdealFacts.

(** ** Exact arithmetic: payout distributions *)

Module PayoutFacts.

Import Ideal IdealFacts.
Local Open Scope R_scope.

(** *** Sums *)

Lemma Rsum_app (l1 l2 : list R) : Rsum (l1 ++ l2) = Rsum l1 + Rsum l2.
Proof.
  unfold Rsum.
  induction l1 as [|a l1 IH]; cbn [app fold_right]; [lra | rewrite IH; lra].
Qed.

Lemma Rsum_scale {A : Type} (c : R) (g : A -> R) (l : list A) :
  Rsum (map (fun e => c * g e) l) = c * Rsum (map g l).
Proof.
  unfold Rsum.
  induction l as [|e l IH]; cbn [map fold_right]; [lra | rewrite IH; lra].
Qed.

Lemma Rsum_map_plus {A : Type} (g h : A -> R) (l : list A) :
  Rsum (map (fun e => g e + h e) l) = Rsum (map g l) + Rsum (map h l).
Proof.
  unfold Rsum.
  induction l as [|e l IH]; cbn [map fold_right]; [lra | rewrite IH; lra].
Qed.

Lemma Rsum_map_ext {A : Type} (g h : A -> R) (l : list A) :
  (forall e, g e = h e) -> Rsum (map g l) = Rsum (map h l).
Proof.
  intros Hext. unfold Rsum.
  induction l as [|e l IH]; cbn [map fold_right];
    [reflexivity | rewrite IH, Hext; reflexivity].
Qed.

Lemma Rsum_scale_zero {A : Type} (l : list A) (g : A -> R) :
  0 = Rsum (map (fun e => g e * 0) l).
Proof.
  unfold Rsum.
  induction l as [|e l IH]; cbn [map fold_right]; [lra | rewrite <- IH; lra].
Qed.

Lemma fold_left_add {A : Type} (g : A -> R) (l : list A) (a : R) :
  fold_left (fun acc e => add acc (g e)) l a = a + Rsum (map g l).
Proof.
  revert a.
  induction l as [|e l IH]; intros a; cbn [fold_left map Rsum fold_right].
  - lra.
  - rewrite IH. cbn [add real_number]. unfold Rsum. lra.
Qed.

Lemma total_mass_sum (m : PMF R) : total_mass m = Rsum (map snd m).
Proof. unfold total_mass. rewrite fold_left_add, lit_0. lra. Qed.

(** *** Reading and writing the map *)

Lemma or_zero_Some (v : R) : or_zero (Some v) = v.
Proof.
  unfold or_zero. cbn [truthy real_number].
  destruct (Reqb v 0) eqn:E; cbn [negb]; [|reflexivity].
  apply Reqb_true in E. rewrite lit_0. congruence.
Qed.

Lemma or_zero_None : or_zero (@None R) = 0.
Proof. unfold or_zero. apply lit_0. Qed.

Lemma map_get_set_same (m : PMF R) (k v : R) :
  map_get (map_set m k v) k = Some v.
Proof.
  induction m as [|[k' v'] m IH];
    cbn [map_set map_get map_key same_value_zero real_number].
  - rewrite Reqb_refl. reflexivity.
  - destruct (Reqb k' k) eqn:E; cbn [map_get same_value_zero real_number];
      rewrite E; [reflexivity | exact IH].
Qed.

Lemma map_get_set_other (m : PMF R) (k0 k v : R) :
  Reqb k0 k = false -> map_get (map_set m k0 v) k = map_get m k.
Proof.
  intros Hne.
  induction m as [|[k' v'] m IH];
    cbn [map_set map_get map_key same_value_zero real_number].
  - rewrite Hne. reflexivity.
  - destruct (Reqb k' k0) eqn:E; cbn [map_get same_value_zero real_number].
    + apply Reqb_true in E. subst k'. rewrite Hne. reflexivity.
    + rewrite IH. reflexivity.
Qed.

Lemma map_get_accumulate1 (m : PMF R) (e : R * R) (k : R) :
  map_get (accumulate1 m e) k
  = if Reqb (fst e) k then Some (or_zero (map_get m k) + snd e)
    else map_get m k.
Proof.
  unfold accumulate1. destruct (Reqb (fst e) k) eqn:E.
  - apply Reqb_true in E. subst k. apply map_get_set_same.
  - apply map_get_set_other. exact E.
Qed.

Lemma masssum_absent (l : list (R * R)) (k : R) :
  present l k = false -> masssum l k = 0.
Proof.
  unfold present, masssum, Rsum.
  induction l as [|e l IH]; cbn [existsb map fold_right]; intros H;
    [reflexivity|].
  apply orb_false_iff in H. destruct H as [E1 E2].
  rewrite E1, IH by exact E2. lra.
Qed.

Lemma present_cons (e : R * R) (l : list (R * R)) (k : R) :
  present (e :: l) k = (Reqb (fst e) k || present l k)%bool.
Proof. reflexivity. Qed.

Lemma masssum_cons (e : R * R) (l : list (R * R)) (k : R) :
  masssum (e :: l) k = (if Reqb (fst e) k then snd e else 0) + masssum l k.
Proof. reflexivity. Qed.

Lemma map_get_accumulate (l : list (R * R)) (m : PMF R) (k : R) :
  map_get (accumulate l m) k
  = if present l k then Some (or_zero (map_get m k) + masssum l k)
    else map_get m k.
Proof.
  unfold accumulate. revert m.
  induction l as [|e l IH]; intros m; cbn [fold_left].
  - reflexivity.
  - rewrite IH, map_get_accumulate1, present_cons, masssum_cons.
    destruct (Reqb (fst e) k); cbn [orb].
    + rewrite or_zero_Some.
      destruct (present l k) eqn:El; f_equal; [lra|].
      rewrite (masssum_absent l k El). lra.
    + destruct (present l k); [f_equal; lra | reflexivity].
Qed.

(** What [get] returns on a map accumulated from the empty map. *)
Lemma map_get_accumulated (l : list (R * R)) (k : R) :
  map_get (accumulate l []) k
  = if present l k then Some (0 + masssum l k) else None.
Proof.
  rewrite map_get_accumulate. cbn [map_get]. rewrite or_zero_None. reflexivity.
Qed.

Lemma present_masssum_accumulate1 (m : PMF R) (e : R * R) (k : R) :
  present (accumulate1 m e) k = (Reqb (fst e) k || present m k)%bool
  /\ masssum (accumulate1 m e) k
     = masssum m k + (if Reqb (fst e) k then snd e else 0).
Proof.
  unfold accumulate1, present, masssum, Rsum. destruct e as [k0 p]. cbn [fst snd].
  induction m as [|[k' v'] m IH].
  - cbn [map_get map_set map_key real_number existsb map fold_right fst snd].
    rewrite or_zero_None. cbn [add real_number].
    split; [reflexivity|]. destruct (Reqb k0 k); lra.
  - cbn [map_get map_set same_value_zero real_number].
    destruct (Reqb k' k0) eqn:E.
    + apply Reqb_true in E. subst k'. rewrite or_zero_Some.
      cbn [existsb map fold_right fst snd add real_number].
      split; [destruct (Reqb k0 k); reflexivity|].
      destruct (Reqb k0 k); lra.
    + destruct IH as [IHp IHm].
      cbn [existsb map fold_right fst snd]. rewrite IHp, IHm.
      split; [destruct (Reqb k' k), (Reqb k0 k); reflexivity | lra].
Qed.

Lemma present_masssum_accumulate (l : list (R * R)) (m : PMF R) (k : R) :
  present (accumulate l m) k = (present m k || present l k)%bool
  /\ masssum (accumulate l m) k = masssum m k + masssum l k.
Proof.
  unfold accumulate. revert m.
  induction l as [|e l IH]; intros m; cbn [fold_left].
  - unfold present at 3, masssum at 3, Rsum. cbn [existsb map fold_right].
    rewrite orb_false_r. split; [reflexivity | lra].
  - destruct (IH (accumulate1 m e)) as [IHp IHm].
    destruct (present_masssum_accumulate1 m e k) as [Hp Hm].
    rewrite IHp, IHm, Hp, Hm.
    unfold present at 4, masssum at 4, Rsum. cbn [existsb map fold_right].
    split.
    + destruct (Reqb (fst e) k), (present m k); reflexivity.
    + unfold masssum, Rsum. lra.
Qed.

Lemma same_masses_accumulate (l : list (R * R)) :
  same_masses (accumulate l []) l.
Proof.
  intros k. destruct (present_masssum_accumulate l [] k) as [Hp Hm].
  rewrite Hp, Hm. unfold present at 1, masssum at 1, Rsum.
  cbn [existsb map fold_right].
  split; [reflexivity | lra].
Qed.

Lemma same_masses_trans (l1 l2 l3 : list (R * R)) :
  same_masses l1 l2 -> same_masses l2 l3 -> same_masses l1 l3.
Proof.
  intros H12 H23 k. destruct (H12 k), (H23 k). split; congruence.
Qed.

Lemma total_mass_accumulate1 (m : PMF R) (e : R * R) :
  total_mass (accumulate1 m e) = total_mass m + snd e.
Proof.
  unfold accumulate1. destruct e as [k p]. cbn [fst snd].
  rewrite !total_mass_sum. unfold Rsum.
  induction m as [|[k' v'] m IH]; cbn [map_set map_get map snd fold_right].
  - rewrite or_zero_None. cbn [add real_number]. lra.
  - cbn [same_value_zero real_number].
    destruct (Reqb k' k).
    + rewrite or_zero_Some. cbn [map snd fold_right add real_number]. lra.
    + cbn [map snd fold_right]. rewrite IH. lra.
Qed.

Lemma total_mass_accumulate (l : list (R * R)) (m : PMF R) :
  total_mass (accumulate l m) = total_mass m + Rsum (map snd l).
Proof.
  unfold accumulate. revert m.
  induction l as [|e l IH]; intros m; cbn [fold_left map].
  - unfold Rsum. cbn [fold_right]. lra.
  - rewrite IH, total_mass_accumulate1. unfold Rsum. cbn [fold_right]. lra.
Qed.

(** *** The pairs of a convolution *)

Lemma present_iff (l : list (R * R)) (k : R) :
  present l k = true <-> exists e, In e l /\ fst e = k.
Proof.
  unfold present. rewrite existsb_exists.
  split; intros (e & Hin & He); exists e; (split; [exact Hin|]);
    apply Reqb_true; exact He.
Qed.

Lemma present_pairs_iff (l1 l2 : list (R * R)) (k : R) :
  present (pairs l1 l2) k = true
  <-> exists e2, In e2 l2 /\ present l1 (k - fst e2) = true.
Proof.
  rewrite present_iff. unfold pairs. split.
  - intros (e & Hin & He).
    apply in_flat_map in Hin. destruct Hin as (e1 & H1 & Hin).
    apply in_map_iff in Hin. destruct Hin as (e2 & Heq & H2). subst e.
    cbn [fst] in He. exists e2. split; [exact H2|].
    apply present_iff. exists e1. split; [exact H1 | lra].
  - intros (e2 & H2 & Hp).
    apply present_iff in Hp. destruct Hp as (e1 & H1 & He).
    exists (fst e1 + fst e2, snd e1 * snd e2). split; [|cbn [fst]; lra].
    apply in_flat_map. exists e1. split; [exact H1|].
    apply in_map_iff. exists e2. split; [reflexivity | exact H2].
Qed.

Lemma masssum_app (l1 l2 : list (R * R)) (k : R) :
  masssum (l1 ++ l2) k = masssum l1 k + masssum l2 k.
Proof. unfold masssum. rewrite map_app. apply Rsum_app. Qed.

Lemma masssum_shifted (e1 : R * R) (l2 : list (R * R)) (k : R) :
  masssum (map (fun e2 => (fst e1 + fst e2, snd e1 * snd e2)) l2) k
  = Rsum (map (fun e2 => snd e2 * (if Reqb (fst e1) (k - fst e2)
                                   then snd e1 else 0)) l2).
Proof.
  unfold masssum. rewrite map_map. apply Rsum_map_ext. intros e2. cbn [fst snd].
  destruct (Reqb (fst e1 + fst e2) k) eqn:E1,
           (Reqb (fst e1) (k - fst e2)) eqn:E2; try lra.
  - apply Reqb_true in E1. apply Reqb_false in E2. exfalso. apply E2. lra.
  - apply Reqb_false in E1. apply Reqb_true in E2. exfalso. apply E1. lra.
Qed.

Lemma masssum_pairs (l1 l2 : list (R * R)) (k : R) :
  masssum (pairs l1 l2) k
  = Rsum (map (fun e2 => snd e2 * masssum l1 (k - fst e2)) l2).
Proof.
  induction l1 as [|e1 l1 IH].
  - exact (Rsum_scale_zero l2 snd).
  - change (pairs (e1 :: l1) l2)
      with (map (fun e2 => (fst e1 + fst e2, snd e1 * snd e2)) l2 ++ pairs l1 l2).
    rewrite masssum_app, IH, masssum_shifted, <- Rsum_map_plus.
    apply Rsum_map_ext. intros e2. rewrite masssum_cons. lra.
Qed.

Lemma same_masses_pairs (l1 l1' l2 : list (R * R)) :
  same_masses l1 l1' -> same_masses (pairs l1 l2) (pairs l1' l2).
Proof.
  intros Hsame k. split.
  - apply eq_true_iff_eq. rewrite !present_pairs_iff.
    split; intros (e2 & H2 & Hp); exists e2; (split; [exact H2|]);
      destruct (Hsame (k - fst e2)) as [Hpres _]; congruence.
  - rewrite !masssum_pairs. apply Rsum_map_ext. intros e2.
    destruct (Hsame (k - fst e2)) as [_ Hmass]. rewrite Hmass. reflexivity.
Qed.

Lemma Rsum_snd_pairs (l1 l2 : list (R * R)) :
  Rsum (map snd (pairs l1 l2)) = Rsum (map snd l1) * Rsum (map snd l2).
Proof.
  induction l1 as [|e1 l1 IH].
  - unfold Rsum. cbn [pairs flat_map map fold_right]. lra.
  - change (pairs (e1 :: l1) l2)
      with (map (fun e2 => (fst e1 + fst e2, snd e1 * snd e2)) l2 ++ pairs l1 l2).
    rewrite map_app, Rsum_app, IH, map_map. cbn [snd].
    rewrite (Rsum_scale (snd e1) snd). unfold Rsum. cbn [map fold_right]. lra.
Qed.

(** *** Both methods as accumulations *)

Lemma convolveDistributions_accumulate (pmf1 pmf2 : PMF R) :
  convolveDistributions pmf1 pmf2 = accumulate (pairs pmf1 pmf2) [].
Proof.
  unfold convolveDistributions, accumulate, pairs. cbv zeta.
  generalize (@nil (R * R)) as result.
  induction pmf1 as [|e1 pmf1 IH]; intros result; cbn [fold_left flat_map].
  - reflexivity.
  - rewrite fold_left_app, <- IH. f_equal.
    clear IH. revert result.
    induction pmf2 as [|e2 pmf2 IH2]; intros result; cbn [fold_left map].
    + reflexivity.
    + rewrite IH2. reflexivity.
Qed.

Lemma computePayoutPMFCartesian_accumulate (bets : list (PositionModel R)) :
  computePayoutPMFCartesian bets = accumulate (cartesianPairs bets) [].
Proof.
  unfold computePayoutPMFCartesian, outcomeProbsAndPayouts, accumulate,
    cartesianPairs.
  fold branches.
  generalize (cartesianProduct (map branches bets)) as outcomes.
  generalize (@nil (R * R)) as m.
  intros m outcomes. revert m.
  induction outcomes as [|o outcomes IH]; intros m; cbn [map fold_left].
  - reflexivity.
  - rewrite IH. reflexivity.
Qed.

Lemma cartesianProduct_snoc {T : Type} (allEntries : list (list T))
    (entries : list T) :
  cartesianProduct (allEntries ++ [entries])
  = flat_map (fun result => map (fun entry => result ++ [entry]) entries)
             (cartesianProduct allEntries).
Proof. unfold cartesianProduct. rewrite fold_left_app. reflexivity. Qed.

Lemma summary_snoc (outcome : list (BetOutcome R)) (e : BetOutcome R) :
  summary (outcome ++ [e])
  = (fst (summary outcome) + fst (asPair e),
     snd (summary outcome) * snd (asPair e)).
Proof. unfold summary. rewrite !fold_left_app. reflexivity. Qed.

Lemma cartesianPairs_snoc (bets : list (PositionModel R))
    (bet : PositionModel R) :
  cartesianPairs (bets ++ [bet])
  = pairs (cartesianPairs bets) (map asPair (branches bet)).
Proof.
  unfold cartesianPairs. rewrite map_app. cbn [map].
  rewrite cartesianProduct_snoc. unfold pairs.
  induction (cartesianProduct (map branches bets)) as [|r results IH];
    cbn [flat_map map].
  - reflexivity.
  - rewrite map_app, IH. f_equal.
    rewrite !map_map. apply map_ext. intros e. apply summary_snoc.
Qed.

Lemma computePayoutPMFConvolution_snoc (bets : list (PositionModel R))
    (bet : PositionModel R) :
  computePayoutPMFConvolution (bets ++ [bet])
  = convolveDistributions (computePayoutPMFConvolution bets)
      (map_new [ (lit 0, sub (lit 1) (probability bet));
                 (payout bet, probability bet) ]).
Proof.
  unfold computePayoutPMFConvolution. rewrite fold_left_app. reflexivity.
Qed.

(** The two-point distribution of a bet that pays something has both
    entries. *)
Lemma betDistribution_nonzero_payout (bet : PositionModel R) :
  payout bet <> 0 ->
  map_new [ (lit 0, sub (lit 1) (probability bet));
            (payout bet, probability bet) ]
  = map asPair (branches bet).
Proof.
  intros Hpay. unfold map_new.
  cbn [fold_left map_set fst snd map_key same_value_zero real_number].
  replace (Reqb (lit 0) (payout bet)) with false; [reflexivity|].
  symmetry. apply Reqb_false. rewrite lit_0. congruence.
Qed.

(** *** Total mass *)

Lemma total_mass_nil : total_mass (@nil (R * R)) = 0.
Proof. unfold total_mass. cbn [fold_left]. apply lit_0. Qed.

Lemma cartesianPairs_total (bets : list (PositionModel R)) :
  Rsum (map snd (cartesianPairs bets)) = 1.
Proof.
  induction bets as [|bet bets IH] using rev_ind.
  - unfold cartesianPairs, Rsum.
    cbn [map cartesianProduct fold_left summary snd fold_right].
    rewrite lit_1. lra.
  - rewrite cartesianPairs_snoc, Rsum_snd_pairs, IH.
    unfold Rsum.
    cbn [branches map asPair snd fold_right outcome_probability sub real_number].
    rewrite lit_1. lra.
Qed.

(** Over exact arithmetic the masses of the PMF that the cartesian method
    returns sum to 1, for every list of positions. *)
Lemma cartesian_total_mass (bets : list (PositionModel R)) :
  total_mass (computePayoutDistribution bets "cartesian") = 1.
Proof.
  unfold computePayoutDistribution. cbn [String.eqb Ascii.eqb Bool.eqb].
  rewrite computePayoutPMFCartesian_accumulate, total_mass_accumulate,
    total_mass_nil, cartesianPairs_total.
  lra.
Qed.

Lemma convolveDistributions_total_mass (pmf1 pmf2 : PMF R) :
  total_mass (convolveDistributions pmf1 pmf2)
  = total_mass pmf1 * total_mass pmf2.
Proof.
  rewrite convolveDistributions_accumulate, total_mass_accumulate,
    total_mass_nil, Rsum_snd_pairs, !total_mass_sum.
  lra.
Qed.

Lemma betDistribution_total_mass (bet : PositionModel R) :
  total_mass (map_new [ (lit 0, sub (lit 1) (probability bet));
                        (payout bet, probability bet) ])
  = betDistribution_mass bet.
Proof.
  unfold map_new, betDistribution_mass.
  cbn [fold_left map_set fst snd map_key same_value_zero real_number].
  rewrite lit_0, lit_1. unfold Reqb.
  destruct (Req_dec_T 0 (payout bet)); rewrite total_mass_sum; unfold Rsum;
    cbn [map fold_right snd sub real_number]; lra.
Qed.

(** Over exact arithmetic the masses of the PMF that the convolution method
    returns sum to the product of [betDistribution_mass] over the bets. *)
Lemma convolution_total_mass (bets : list (PositionModel R)) :
  total_mass (computePayoutDistribution bets "convolution")
  = fold_right (fun bet acc => acc * betDistribution_mass bet) 1 (rev bets).
Proof.
  unfold computePayoutDistribution. cbn [String.eqb Ascii.eqb Bool.eqb].
  induction bets as [|bet bets IH] using rev_ind.
  - unfold computePayoutPMFConvolution, map_new.
    cbn [fold_left map_set fst snd map_key real_number rev fold_right].
    rewrite total_mass_sum. unfold Rsum. cbn [map fold_right snd].
    rewrite lit_1. lra.
  - rewrite computePayoutPMFConvolution_snoc, convolveDistributions_total_mass,
      IH, betDistribution_total_mass, rev_app_distr.
    reflexivity.
Qed.

(** They sum to 1 when no position pays 0. *)
Lemma convolution_total_mass_nonzero_payouts (bets : list (PositionModel R)) :
  Forall (fun bet => payout bet <> 0) bets ->
  total_mass (computePayoutDistribution bets "convolution") = 1.
Proof.
  intros Hall. rewrite convolution_total_mass.
  apply Forall_rev in Hall.
  induction Hall as [|bet l Hbet Hall IH]; cbn [fold_right]; [reflexivity|].
  rewrite IH. unfold betDistribution_mass.
  destruct (Req_dec_T 0 (payout bet)); [congruence | lra].
Qed.

(** *** Agreement of the two methods *)

Lemma convolution_same_masses (bets : list (PositionModel R)) :
  Forall (fun bet => payout bet <> 0) bets ->
  same_masses (computePayoutPMFConvolution bets) (cartesianPairs bets).
Proof.
  induction bets as [|bet bets IH] using rev_ind; intros Hall.
  - intros k. split; reflexivity.
  - apply Forall_app in Hall. destruct Hall as [Hbets Hbet].
    inversion Hbet as [|? ? Hpay _]; subst.
    rewrite computePayoutPMFConvolution_snoc, cartesianPairs_snoc.
    rewrite betDistribution_nonzero_payout by exact Hpay.
    rewrite convolveDistributions_accumulate.
    eapply same_masses_trans; [apply same_masses_accumulate|].
    apply same_masses_pairs. apply IH. exact Hbets.
Qed.

(** Over exact arithmetic, when no position pays 0, the two methods return
    maps with the same keys and the same mass at each key. *)
Lemma methods_agree_on_nonzero_payouts (bets : list (PositionModel R)) :
  Forall (fun bet => payout bet <> 0) bets ->
  forall k : R,
    map_get (computePayoutDistribution bets "convolution") k
    = map_get (computePayoutDistribution bets "cartesian") k.
Proof.
  intros Hall k. unfold computePayoutDistribution.
  cbn [String.eqb Ascii.eqb Bool.eqb].
  rewrite computePayoutPMFCartesian_accumulate, map_get_accumulated.
  destruct bets as [|bet bets _] using rev_ind.
  - unfold computePayoutPMFConvolution, map_new, cartesianPairs, present,
      masssum, Rsum.
    cbn [fold_left map_set map_get fst snd map_key same_value_zero real_number
         map cartesianProduct summary existsb fold_right].
    rewrite lit_0, lit_1.
    destruct (Reqb 0 k); cbn [orb]; [f_equal; lra | reflexivity].
  - apply Forall_app in Hall. destruct Hall as [Hbets Hbet].
    inversion Hbet as [|? ? Hpay _]; subst.
    rewrite computePayoutPMFConvolution_snoc, cartesianPairs_snoc.
    rewrite betDistribution_nonzero_payout by exact Hpay.
    rewrite convolveDistributions_accumulate, map_get_accumulated.
    destruct (same_masses_pairs (map asPair (branches bet))
                (convolution_same_masses Hbets) k) as [Hp Hm].
    rewrite Hp, Hm. reflexivity.
Qed.

End PayoutFacts.

(** ** Properties that hold at every instance *)

Section GuardFacts.

Context {num : Type} {JS : JSNumber num}.
Variable fetchMarketCached : string -> CachedMarket num.
Variable getBinaryCpmmBetInfoWrapper : Outcome -> num -> string -> BetInfo num.

(** Both optimizers return [noBet] when the guard [!startingMarketProb]
    fires. *)
Lemma guard_returns_noBet (estimatedProb deferenceFactor : num)
    (marketSlug : string) (bankroll balance portfolioValue : num) :
  not_truthy (startingMarketProb_of (fetchMarketCached marketSlug)) = true ->
  calculateFullKellyBet fetchMarketCached getBinaryCpmmBetInfoWrapper
      estimatedProb deferenceFactor marketSlug bankroll = noBet
  /\ calculateFullKellyBetWithPortfolio fetchMarketCached
       getBinaryCpmmBetInfoWrapper
       estimatedProb deferenceFactor marketSlug balance portfolioValue = noBet.
Proof.
  intros Hguard.
  unfold calculateFullKellyBet, calculateFullKellyBetWithPortfolio,
    calculateFullKellyBetWithPortfolio_run.
  rewrite Hguard. split; reflexivity.
Qed.

(** C8. When the starting market probability cannot be obtained
    ([getMarket()] resolves to [undefined], or the market has no
    [probability]), [calculateFullKellyBet] and
    [calculateFullKellyBetWithPortfolio] return
    [{ amount: 0, outcome: "YES", shares: 0, pAfter: 0 }]. *)
Theorem unavailable_probability_returns_zero_bet
    (estimatedProb deferenceFactor : num) (marketSlug : string)
    (bankroll balance portfolioValue : num) :
  startingMarketProb_of (fetchMarketCached marketSlug) = None ->
  calculateFullKellyBet fetchMarketCached getBinaryCpmmBetInfoWrapper
      estimatedProb deferenceFactor marketSlug bankroll
    = {| full_amount := lit 0; full_outcome := YES;
         shares := lit 0; pAfter := lit 0 |}
  /\ calculateFullKellyBetWithPortfolio fetchMarketCached
       getBinaryCpmmBetInfoWrapper
       estimatedProb deferenceFactor marketSlug balance portfolioValue
    = {| full_amount := lit 0; full_outcome := YES;
         shares := lit 0; pAfter := lit 0 |}.
Proof.
  intros Hnone. apply guard_returns_noBet. rewrite Hnone. reflexivity.
Qed.

(** C9. Two calls of [calculateFullKellyBetWithPortfolio] that differ
    only in [portfolioValue] return the same recommendation: the illiquid
    expected value is the constant 1000, and [portfolioValue] is not
    read. *)
Theorem portfolioValue_is_ignored
    (estimatedProb deferenceFactor : num) (marketSlug : string)
    (balance portfolioValue1 portfolioValue2 : num) :
  calculateFullKellyBetWithPortfolio fetchMarketCached
      getBinaryCpmmBetInfoWrapper
      estimatedProb deferenceFactor marketSlug balance portfolioValue1
  = calculateFullKellyBetWithPortfolio fetchMarketCached
      getBinaryCpmmBetInfoWrapper
      estimatedProb deferenceFactor marketSlug balance portfolioValue2.
Proof.
  unfold calculateFullKellyBetWithPortfolio,
    calculateFullKellyBetWithPortfolio_run.
  reflexivity.
Qed.

(** The Newton step is the raw step when that is within the bounds, and
    otherwise the bound it passed. *)
Lemma newtonStep_cases (f : num -> num) (lowerBound upperBound x : num) :
  let xNext := sub x (div (f x) (D f x D_default_h)) in
  (ltb xNext lowerBound = true ->
     newtonStep f lowerBound upperBound x = lowerBound)
  /\ (ltb xNext lowerBound = false -> ltb upperBound xNext = true ->
     newtonStep f lowerBound upperBound x = upperBound)
  /\ (ltb xNext lowerBound = false -> ltb upperBound xNext = false ->
     newtonStep f lowerBound upperBound x = xNext).
Proof.
  intros xNext. unfold newtonStep. fold xNext.
  repeat split; intros;
    repeat match goal with H : _ = _ |- _ => rewrite H end;
    reflexivity.
Qed.

End GuardFacts.

(** ** Runs in binary64 arithmetic *)

Module FloatRuns.

Import Float64.
Local Open Scope float_scope.
#[local] Set Warnings "-inexact-float".

(** The literals of the source, as binary64 values. *)
Lemma literals :
  (lit (1 # 1000) : float) = 1e-3
  /\ (default_tolerance : float) = 1e-6
  /\ (lit (1 # 10) : float) = 0.1
  /\ (lit (1 # 2) : float) = 0.5
  /\ (lit (95 # 100) : float) = 0.95
  /\ (lit 1000 : float) = 1000.
Proof. repeat split; reflexivity. Qed.

(** *** findRoot on [x - 3] *)

(** C5. [findRoot] on [f(x) = x - 3] over [[0, 10]], with the default
    [iterations = 10] and [tolerance = 1e-6], returns from inside the
    loop in its second pass ([i = 1], of ten), with a value within
    [1e-6] of [3]: in binary64 arithmetic, and likewise over exact
    arithmetic, where the value is [3]. *)
Theorem findRoot_linear_converges :
  (let f := fun x : float => x - 3 in
   let r := findRoot f 0 10 default_iterations default_tolerance in
   findRoot_search f 0 10 default_iterations default_tolerance = FoundRoot 1 r
   /\ (abs (r - 3) <? 1e-6) = true)
  /\ findRoot_search (fun x : R => (x - 3)%R) 0%R 10%R
                     default_iterations default_tolerance
     = FoundRoot 1 3%R.
Proof.
  split; [split; vm_compute; reflexivity|].
  exact IdealFacts.findRoot_linear_exact.
Qed.

(** *** findRoot on [x + 100] *)

Lemma shifted_step_from_midpoint : newtonStep shifted 0 10 5 = 0.
Proof. vm_compute. reflexivity. Qed.

Lemma shifted_step_from_lowerBound : newtonStep shifted 0 10 0 = 0.
Proof. vm_compute. reflexivity. Qed.

Lemma shifted_loop_from_lowerBound (tolerance : float) (remaining i : nat) :
  root (findRoot_loop shifted 0 10 tolerance remaining i 0) = 0.
Proof.
  revert i. induction remaining as [|remaining IH]; intros i.
  - reflexivity.
  - cbn [findRoot_loop]. rewrite shifted_step_from_lowerBound.
    destruct (ltb _ tolerance); [reflexivity | apply IH].
Qed.

(** Whatever the cap and the tolerance, the search ends at the midpoint
    (no pass run) or at the lower bound. *)
Lemma shifted_findRoot (iterations : nat) (tolerance : float) :
  findRoot shifted 0 10 iterations tolerance = 5
  \/ findRoot shifted 0 10 iterations tolerance = 0.
Proof.
  unfold findRoot, findRoot_search.
  change ((0 + 10) / lit 2)%js with 5.
  destruct iterations as [|remaining].
  - left. reflexivity.
  - right. cbn [findRoot_loop]. rewrite shifted_step_from_midpoint.
    destruct (ltb _ tolerance);
      [reflexivity | apply shifted_loop_from_lowerBound].
Qed.

(** C6. [findRoot] on [f(x) = x + 100] over [[0, 10]] returns a value in
    [[0, 10]], whatever the iteration cap and the tolerance.  In each pass
    of the loop, for any [f] and bounds, a Newton step below [lowerBound]
    is replaced by [lowerBound] and one above [upperBound] by
    [upperBound]; the convergence test and the next pass both use the
    replaced value. *)
Theorem findRoot_stays_within_bounds :
  (forall (iterations : nat) (tolerance : float),
      let r := findRoot (fun x => x + 100) 0 10 iterations tolerance in
      (0 <=? r) = true /\ (r <=? 10) = true)
  /\ (forall (f : float -> float) (lowerBound upperBound tolerance x : float)
             (remaining i : nat),
      let xNext := x - f x / D f x D_default_h in
      let clamped := newtonStep f lowerBound upperBound x in
      ((xNext <? lowerBound) = true -> clamped = lowerBound)
      /\ ((xNext <? lowerBound) = false -> (upperBound <? xNext) = true ->
          clamped = upperBound)
      /\ ((xNext <? lowerBound) = false -> (upperBound <? xNext) = false ->
          clamped = xNext)
      /\ findRoot_loop f lowerBound upperBound tolerance (S remaining) i x
         = if abs (clamped - x) <? tolerance
           then FoundRoot i clamped
           else findRoot_loop f lowerBound upperBound tolerance
                              remaining (S i) clamped).
Proof.
  split.
  - intros iterations tolerance r.
    destruct (shifted_findRoot iterations tolerance) as [H | H];
      subst r; fold shifted; rewrite H; split; reflexivity.
  - intros f lowerBound upperBound tolerance x remaining i xNext clamped.
    destruct (newtonStep_cases f lowerBound upperBound x) as (Hlo & Hhi & Hin).
    repeat split; assumption || reflexivity.
Qed.

Lemma findRoot_stays_within_bounds_witness :
  newtonStep (fun x => x + 100) 0 10 5 = 0
  /\ (0 <=? findRoot (fun x => x + 100) 0 10 default_iterations
                     default_tolerance) = true.
Proof.
  split.
  - apply (proj2 findRoot_stays_within_bounds (fun x => x + 100) 0 10
                 default_tolerance 5 0%nat 0%nat).
    vm_compute. reflexivity.
  - apply (proj1 findRoot_stays_within_bounds default_iterations
                 default_tolerance).
Defined.

(** *** The guard on the starting market probability *)

Lemma unavailable_probability_returns_zero_bet_witness :
  calculateFullKellyBet marketUnavailable (constantProductMarket 1000 1000)
      0.5 1 "market" 1000
    = {| full_amount := 0; full_outcome := YES; shares := 0; pAfter := 0 |}
  /\ calculateFullKellyBetWithPortfolio marketUnavailable
       (constantProductMarket 1000 1000) 0.5 1 "market" 1000 2000
    = {| full_amount := 0; full_outcome := YES; shares := 0; pAfter := 0 |}.
Proof.
  exact (unavailable_probability_returns_zero_bet
           marketUnavailable (constantProductMarket 1000 1000)
           0.5 1 "market" 1000 1000 2000 eq_refl).
Defined.

(** C10. When the fetched starting market probability is the number [0],
    both optimizers return
    [{ amount: 0, outcome: "YES", shares: 0, pAfter: 0 }], as they do when
    the probability is missing: the guard [!startingMarketProb] is true of
    [0]. *)
Theorem zero_probability_returns_zero_bet
    (fetchMarketCached : string -> CachedMarket float)
    (getBinaryCpmmBetInfoWrapper : Outcome -> float -> string -> BetInfo float)
    (estimatedProb deferenceFactor : float) (marketSlug : string)
    (bankroll balance portfolioValue : float) :
  startingMarketProb_of (fetchMarketCached marketSlug) = Some 0 ->
  calculateFullKellyBet fetchMarketCached getBinaryCpmmBetInfoWrapper
      estimatedProb deferenceFactor marketSlug bankroll
    = {| full_amount := 0; full_outcome := YES; shares := 0; pAfter := 0 |}
  /\ calculateFullKellyBetWithPortfolio fetchMarketCached
       getBinaryCpmmBetInfoWrapper
       estimatedProb deferenceFactor marketSlug balance portfolioValue
    = {| full_amount := 0; full_outcome := YES; shares := 0; pAfter := 0 |}.
Proof.
  intros Hzero.
  refine (guard_returns_noBet fetchMarketCached getBinaryCpmmBetInfoWrapper
            estimatedProb deferenceFactor marketSlug bankroll balance
            portfolioValue _).
  rewrite Hzero. reflexivity.
Qed.

Lemma zero_probability_returns_zero_bet_witness :
  calculateFullKellyBet (marketWithProbability 0)
      (constantProductMarket 1000 1000) 0.5 1 "market" 1000
    = {| full_amount := 0; full_outcome := YES; shares := 0; pAfter := 0 |}
  /\ calculateFullKellyBetWithPortfolio (marketWithProbability 0)
       (constantProductMarket 1000 1000) 0.5 1 "market" 1000 2000
    = {| full_amount := 0; full_outcome := YES; shares := 0; pAfter := 0 |}.
Proof.
  exact (zero_probability_returns_zero_bet
           (marketWithProbability 0) (constantProductMarket 1000 1000)
           0.5 1 "market" 1000 1000 2000 eq_refl).
Defined.

(** The guard fires on each falsy number: [0], [-0] and [NaN]. *)
Lemma falsy_probabilities :
  not_truthy (Some 0) = true
  /\ not_truthy (Some (-0)) = true
  /\ not_truthy (Some nan) = true
  /\ not_truthy (Some 0.5) = false.
Proof. repeat split; reflexivity. Qed.

(** *** Payout distributions with a position that pays nothing *)

(** C2. For the single position [{ probability: 0.5, payout: 0 }] the
    two methods of [computePayoutDistribution] disagree: the cartesian
    method returns [{0: 1}] and the convolution method [{0: 0.5}]. *)
Theorem methods_differ_on_zero_payout :
  computePayoutDistribution [worthlessPosition] "cartesian" = [(0, 1)]
  /\ computePayoutDistribution [worthlessPosition] "convolution" = [(0, 0.5)].
Proof. split; vm_compute; reflexivity. Qed.

(** C7. For the single position [{ probability: 0.5, payout: 0 }] the
    masses of the PMF that the convolution method returns sum to 0.5. *)
Theorem convolution_mass_on_zero_payout :
  total_mass (computePayoutDistribution [worthlessPosition] "convolution")
  = 0.5.
Proof. vm_compute. reflexivity. Qed.

(** The two-point distribution of a position that pays 0 has one entry:
    the second entry of [new Map([[0, 1 - p], [0, p]])] replaces the
    first. *)
Lemma betDistribution_of_zero_payout (p : float) :
  map_new [ (0, 1 - p); (0, p) ] = [(0, p)].
Proof. reflexivity. Qed.

(** *** The three roots of the portfolio variant *)

(** C1. On a constant-product market holding 5000 YES and 5000 NO shares
    (probability 0.5), with [estimatedProb = 0.95], [deferenceFactor = 1]
    and [balance = 1000], the call logs [optimalBetInitial] about 873.38,
    [optimalBet] about 1746.76 and [optimalBetHigh] about 1692.22:
    [optimalBet] is the upper end [2 * optimalBetInitial] of its search
    interval and exceeds [optimalBetHigh]. *)
Theorem portfolio_roots_out_of_order :
  exists r : PortfolioRoots float,
    loggedRoots (marketWithProbability 0.5) (constantProductMarket 5000 5000)
                0.95 1 "market" 1000 2000 = Some r
    /\ (optimalBetInitial r <=? optimalBet r) = true
    /\ (optimalBet r <=? optimalBetHigh r) = false
    /\ (optimalBetHigh r <? optimalBet r) = true
    /\ optimalBet r = optimalBetInitial r * 2
    /\ (873.37 <? optimalBetInitial r) = true
    /\ (optimalBetInitial r <? 873.38) = true
    /\ (1746.75 <? optimalBet r) = true
    /\ (optimalBet r <? 1746.76) = true
    /\ (1692.22 <? optimalBetHigh r) = true
    /\ (optimalBetHigh r <? 1692.23) = true.
Proof.
  eexists. split; [vm_compute; reflexivity|].
  repeat split; vm_compute; reflexivity.
Qed.

(** The recommendation returned by that call: a bet on YES above the
    balance. *)
Lemma portfolio_recommendation_above_balance :
  let bet :=
    calculateFullKellyBetWithPortfolio (marketWithProbability 0.5)
      (constantProductMarket 5000 5000) 0.95 1 "market" 1000 2000 in
  full_outcome bet = YES /\ (1746.75 <? full_amount bet) = true.
Proof. split; vm_compute; reflexivity. Qed.

End FloatRuns.

(** * Further properties of the code *)

(** ** Odds conversion: unknown tags *)

Section OddsErrors.

Context {num : Type} {JS : JSNumber num}.

Lemma not_OddsType_eqb (tag : string) :
  ~ OddsType tag ->
  String.eqb tag "decimalOdds" = false
  /\ String.eqb tag "englishOdds" = false
  /\ String.eqb tag "impliedProbability" = false.
Proof.
  intros Hnot. repeat split; apply String.eqb_neq; intros ->; apply Hnot;
    unfold OddsType; auto.
Qed.

(** X1. [convertOdds] returns [value] unchanged when [from] and [to] are the
    same string, whether or not it is a known tag.  When they differ, an
    unknown [from] throws "Invalid 'from' value: <from>", and a known [from]
    with an unknown [to] throws "Invalid 'to' value: <to>". *)
Theorem convertOdds_tag_errors (from to : string) (value : num) :
  (from = to -> convertOdds from to value = Returns value)
  /\ (from <> to -> ~ OddsType from ->
      convertOdds from to value = Throws ("Invalid 'from' value: " ++ from))
  /\ (from <> to -> OddsType from -> ~ OddsType to ->
      convertOdds from to value = Throws ("Invalid 'to' value: " ++ to)).
Proof.
  unfold convertOdds. split; [|split].
  - intros ->. rewrite String.eqb_refl. reflexivity.
  - intros Hne Hfrom. apply String.eqb_neq in Hne. rewrite Hne.
    destruct (not_OddsType_eqb Hfrom) as (E1 & E2 & E3).
    rewrite E1, E2, E3. reflexivity.
  - intros Hne Hfrom Hto. apply String.eqb_neq in Hne. rewrite Hne.
    destruct (not_OddsType_eqb Hto) as (E1 & E2 & E3).
    destruct Hfrom as [-> | [-> | ->]]; cbn [String.eqb Ascii.eqb Bool.eqb];
      rewrite E1, E2, E3; reflexivity.
Qed.

End OddsErrors.

Lemma fractional_is_no_OddsType : ~ OddsType "fractional".
Proof. intros [H | [H | H]]; discriminate H. Qed.

Lemma convertOdds_tag_errors_witness :
  convertOdds "fractional" "fractional" 2%float = Returns 2%float
  /\ convertOdds "fractional" "decimalOdds" 2%float
     = Throws "Invalid 'from' value: fractional"
  /\ convertOdds "decimalOdds" "fractional" 2%float
     = Throws "Invalid 'to' value: fractional".
Proof.
  split; [|split].
  - apply (proj1 (convertOdds_tag_errors "fractional" "fractional" 2%float)).
    reflexivity.
  - apply (proj1 (proj2 (convertOdds_tag_errors "fractional" "decimalOdds"
                           2%float))).
    + discriminate.
    + exact fractional_is_no_OddsType.
  - apply (proj2 (proj2 (convertOdds_tag_errors "decimalOdds" "fractional"
                           2%float))).
    + discriminate.
    + left. reflexivity.
    + exact fractional_is_no_OddsType.
Defined.

(** ** The root finder at every instance *)

Section RootFacts.

Context {num : Type} {JS : JSNumber num}.

Lemma iterate_shift (f : num -> num) (lo hi : num) (n : nat) (x : num) :
  iterate f lo hi n (newtonStep f lo hi x) = iterate f lo hi (S n) x.
Proof. unfold iterate. rewrite Nat.iter_succ_r. reflexivity. Qed.

Lemma findRoot_loop_spec (f : num -> num) (lo hi tol : num) (remaining : nat) :
  forall (i : nat) (x : num),
    match findRoot_loop f lo hi tol remaining i x with
    | FoundRoot j y =>
        exists n, j = (i + n)%nat /\ (n < remaining)%nat
          /\ y = iterate f lo hi (S n) x
          /\ settles f lo hi tol x n = true
          /\ forall m, (m < n)%nat -> settles f lo hi tol x m = false
    | LastEstimate y =>
        y = iterate f lo hi remaining x
        /\ forall m, (m < remaining)%nat -> settles f lo hi tol x m = false
    end.
Proof.
  induction remaining as [|remaining IH]; intros i x.
  - cbn [findRoot_loop]. split; [reflexivity | intros m Hm; lia].
  - cbn [findRoot_loop].
    destruct (ltb (Math_abs (sub (newtonStep f lo hi x) x)) tol) eqn:E.
    + exists 0%nat. repeat split; try lia. exact E.
    + specialize (IH (S i) (newtonStep f lo hi x)).
      destruct (findRoot_loop f lo hi tol remaining (S i) (newtonStep f lo hi x))
        as [j y | y].
      * destruct IH as (n & Hj & Hn & Hy & Hs & Hbefore).
        exists (S n). repeat split.
        -- lia.
        -- lia.
        -- rewrite Hy. apply iterate_shift.
        -- unfold settles in *.
           rewrite <- (iterate_shift f lo hi (S n) x),
                   <- (iterate_shift f lo hi n x).
           exact Hs.
        -- intros [|m] Hm; [exact E|].
           unfold settles in *.
           rewrite <- (iterate_shift f lo hi (S m) x),
                   <- (iterate_shift f lo hi m x).
           apply Hbefore. lia.
      * destruct IH as (Hy & Hbefore). split.
        -- rewrite Hy. apply iterate_shift.
        -- intros [|m] Hm; [exact E|].
           unfold settles in *.
           rewrite <- (iterate_shift f lo hi (S m) x),
                   <- (iterate_shift f lo hi m x).
           apply Hbefore. lia.
Qed.

(** X2. [findRoot] starts from the midpoint of the bounds and returns the
    first clamped Newton iterate that lies within [tolerance] of the one
    before it, from inside the loop, in a pass [i < iterations] before
    which no pass passed that test; when no pass within the cap passes it,
    it returns the iterate after [iterations] passes. *)
Theorem findRoot_search_spec (f : num -> num) (lowerBound upperBound : num)
    (iterations : nat) (tolerance : num) :
  let x0 := div (add lowerBound upperBound) (lit 2) in
  match findRoot_search f lowerBound upperBound iterations tolerance with
  | FoundRoot i xNext =>
      (i < iterations)%nat
      /\ xNext = iterate f lowerBound upperBound (S i) x0
      /\ settles f lowerBound upperBound tolerance x0 i = true
      /\ forall m, (m < i)%nat ->
           settles f lowerBound upperBound tolerance x0 m = false
  | LastEstimate x =>
      x = iterate f lowerBound upperBound iterations x0
      /\ forall m, (m < iterations)%nat ->
           settles f lowerBound upperBound tolerance x0 m = false
  end.
Proof.
  intros x0. unfold findRoot_search. fold x0.
  pose proof (findRoot_loop_spec f lowerBound upperBound tolerance iterations
                0 x0) as H.
  destruct (findRoot_loop f lowerBound upperBound tolerance iterations 0 x0)
    as [j y | y].
  - destruct H as (n & Hj & Hn & Hy & Hs & Hbefore). cbn in Hj. subst j.
    repeat split; assumption.
  - exact H.
Qed.

End RootFacts.

Lemma findRoot_search_spec_witness :
  settles (fun x : float => PrimFloat.sub x 3%float) 0%float 10%float
          default_tolerance 5%float 0
  = false.
Proof.
  pose proof (findRoot_search_spec (fun x : float => PrimFloat.sub x 3%float)
                0%float 10%float default_iterations default_tolerance) as H.
  assert (E : findRoot_search (fun x : float => PrimFloat.sub x 3%float)
                0%float 10%float default_iterations default_tolerance
              = FoundRoot 1 3%float) by (vm_compute; reflexivity).
  rewrite E in H. destruct H as (_ & _ & _ & Hbefore).
  exact (Hbefore 0%nat (le_n 1)).
Defined.

(** ** The cartesian enumeration *)

Section ProductFacts.

Lemma length_extend {T : Type} (results : list (list T)) (entries : list T) :
  List.length
    (flat_map (fun result => map (fun entry => result ++ [entry]) entries)
              results)
  = (List.length results * List.length entries)%nat.
Proof.
  induction results as [|r results IH]; cbn [flat_map List.length].
  - reflexivity.
  - rewrite length_app, length_map, IH. lia.
Qed.

Lemma cartesianProduct_length {T : Type} (allEntries : list (list T)) :
  List.length (cartesianProduct allEntries)
  = fold_right Nat.mul 1%nat (map (@List.length T) allEntries).
Proof.
  induction allEntries as [|entries allEntries IH] using rev_ind.
  - reflexivity.
  - rewrite PayoutFacts.cartesianProduct_snoc, length_extend, IH, map_app.
    cbn [map]. rewrite fold_right_app. cbn [fold_right].
    generalize (map (@List.length T) allEntries) as ns.
    induction ns as [|n ns IHns]; cbn [fold_right]; [lia|].
    rewrite <- IHns. lia.
Qed.

Lemma cartesianProduct_widths {T : Type} (allEntries : list (list T)) :
  Forall (fun combination => List.length combination = List.length allEntries)
         (cartesianProduct allEntries).
Proof.
  induction allEntries as [|entries allEntries IH] using rev_ind.
  - repeat constructor.
  - rewrite PayoutFacts.cartesianProduct_snoc. apply Forall_flat_map.
    eapply Forall_impl; [|exact IH]. intros r Hr. cbn beta.
    apply Forall_map. apply Forall_forall. intros e _.
    rewrite !length_app, Hr. reflexivity.
Qed.

(** X3. [cartesianProduct] returns as many combinations as the product of
    the lengths of its arguments (one, the empty combination, for no
    argument; none as soon as one argument is empty), and every combination
    has one entry per argument. *)
Theorem cartesianProduct_shape {T : Type} (allEntries : list (list T)) :
  List.length (cartesianProduct allEntries)
  = fold_right Nat.mul 1%nat (map (@List.length T) allEntries)
  /\ Forall (fun combination =>
               List.length combination = List.length allEntries)
            (cartesianProduct allEntries).
Proof.
  split; [apply cartesianProduct_length | apply cartesianProduct_widths].
Qed.

Context {num : Type} {JS : JSNumber num}.

(** X4. The cartesian method enumerates [2^n] outcomes for [n] positions,
    before it merges those of equal payout. *)
Theorem outcomes_are_exponential (bets : list (PositionModel num)) :
  List.length (outcomeProbsAndPayouts bets) = (2 ^ List.length bets)%nat.
Proof.
  unfold outcomeProbsAndPayouts. rewrite length_map, cartesianProduct_length.
  induction bets as [|bet bets IH]; cbn [map fold_right List.length].
  - reflexivity.
  - rewrite IH. cbn [Nat.pow]. lia.
Qed.

End ProductFacts.

(** ** The two optimizers *)

Section OptimizerRelation.

Context {num : Type} {JS : JSNumber num}.
Variable fetchMarketCached : string -> CachedMarket num.
Variable getBinaryCpmmBetInfoWrapper : Outcome -> num -> string -> BetInfo num.

(** X5. The first root of the portfolio variant, [optimalBetInitial], is
    the amount that [calculateFullKellyBet] returns for the same market,
    estimate and deference with [bankroll = balance], and the two functions
    recommend the same outcome; when the portfolio variant logs nothing,
    [calculateFullKellyBet] returns the zero bet. *)
Theorem portfolio_initial_root_is_full_kelly
    (estimatedProb deferenceFactor : num) (marketSlug : string)
    (balance portfolioValue : num) :
  let single :=
    calculateFullKellyBet fetchMarketCached getBinaryCpmmBetInfoWrapper
      estimatedProb deferenceFactor marketSlug balance in
  match loggedRoots fetchMarketCached getBinaryCpmmBetInfoWrapper
          estimatedProb deferenceFactor marketSlug balance portfolioValue with
  | Some r =>
      optimalBetInitial r = full_amount single
      /\ full_outcome
           (calculateFullKellyBetWithPortfolio fetchMarketCached
              getBinaryCpmmBetInfoWrapper estimatedProb deferenceFactor
              marketSlug balance portfolioValue)
         = full_outcome single
  | None => single = noBet
  end.
Proof.
  intros single. subst single.
  unfold loggedRoots, calculateFullKellyBetWithPortfolio,
    calculateFullKellyBetWithPortfolio_run, calculateFullKellyBet.
  destruct (not_truthy (startingMarketProb_of (fetchMarketCached marketSlug)));
    cbn [fst snd]; [reflexivity | split; reflexivity].
Qed.

End OptimizerRelation.

(** ** Exact arithmetic: odds, naive Kelly, differentiation, root finding *)

Module MoreIdealFacts.

Import Ideal IdealFacts.
Local Open Scope R_scope.

(** X6. For a value [v > 0] and odds representations [X], [Y] and [Z],
    converting from [X] to [Y] and then from [Y] to [Z] returns what
    converting from [X] to [Z] returns. *)
Theorem convertOdds_composes (X Y Z : string) (v : R) :
  OddsType X -> OddsType Y -> OddsType Z -> 0 < v ->
  exists w : R,
    convertOdds X Y v = Returns w
    /\ convertOdds Y Z w = convertOdds X Z v.
Proof.
  intros HX HY HZ Hv.
  each_tag HX; each_tag HY; each_tag HZ; cbn; unfold Q2R; cbn;
    eexists; (split; [reflexivity | try reflexivity; f_equal; field; lra]).
Qed.

Lemma convertOdds_composes_witness :
  exists w : R,
    convertOdds "englishOdds" "impliedProbability" 3 = Returns w
    /\ convertOdds "impliedProbability" "decimalOdds" w
       = convertOdds "englishOdds" "decimalOdds" 3.
Proof.
  apply convertOdds_composes;
    [ right; left; reflexivity | right; right; reflexivity
    | left; reflexivity | lra ].
Defined.

(** X7. An implied probability [p] in (0,1) converts to the english odds
    [(1 - p) / p], which are positive, and to decimal odds one above them,
    hence above 1. *)
Theorem convertOdds_of_probability (p : R) :
  0 < p < 1 ->
  exists e d : R,
    convertOdds "impliedProbability" "englishOdds" p = Returns e
    /\ convertOdds "impliedProbability" "decimalOdds" p = Returns d
    /\ e = (1 - p) / p /\ 0 < e
    /\ d = e + 1 /\ 1 < d.
Proof.
  intros Hp. cbn. unfold Q2R. cbn. do 2 eexists.
  split; [reflexivity|]. split; [reflexivity|].
  assert (H1 : 0 < / p) by (apply Rinv_0_lt_compat; lra).
  assert (H2 : 1 < / p).
  { rewrite <- Rinv_1. apply Rinv_lt_contravar; lra. }
  repeat split.
  - field. lra.
  - lra.
  - lra.
  - lra.
Qed.

Lemma convertOdds_of_probability_witness :
  exists e d : R,
    convertOdds "impliedProbability" "englishOdds" (1 / 4) = Returns e
    /\ convertOdds "impliedProbability" "decimalOdds" (1 / 4) = Returns d
    /\ e = (1 - 1 / 4) / (1 / 4) /\ 0 < e
    /\ d = e + 1 /\ 1 < d.
Proof. apply convertOdds_of_probability. lra. Defined.

Lemma naive_amount_range
    (marketProb estimatedProb deferenceFactor bankroll : R) :
  0 <= bankroll ->
  0 <= amount (calculateNaiveKellyBet marketProb estimatedProb
                                      deferenceFactor bankroll)
    <= bankroll.
Proof.
  intros Hb. unfold calculateNaiveKellyBet, calculateNaiveKellyFraction.
  cbn [amount]. rewrite lit_0, lit_1. cbn [Math_min Math_max mul real_number].
  rewrite min_max_is_clamp01.
  match goal with |- context [clamp01 ?x] =>
    pose proof (clamp01_bounds x) as Hc; set (c := clamp01 x) in * end.
  nra.
Qed.

(** X8. For a market probability other than 1 (so that the division by
    [1 - marketProb] is defined) and a bankroll that is not negative,
    [calculateNaiveKellyBet] recommends an amount between 0 and the
    bankroll; the amount is the bankroll times the fraction of
    [calculateNaiveKellyFraction], and the outcome is that function's. *)
Theorem calculateNaiveKellyBet_bounds
    (marketProb estimatedProb deferenceFactor bankroll : R) :
  marketProb <> 1 ->
  0 <= bankroll ->
  let bet :=
    calculateNaiveKellyBet marketProb estimatedProb deferenceFactor bankroll in
  let fraction :=
    calculateNaiveKellyFraction marketProb estimatedProb deferenceFactor in
  0 <= amount bet <= bankroll
  /\ amount bet = bankroll * fst fraction
  /\ outcome bet = snd fraction.
Proof.
  intros _ Hb bet fraction. split; [apply naive_amount_range; exact Hb|].
  split; reflexivity.
Qed.

Lemma calculateNaiveKellyBet_bounds_witness :
  let bet := calculateNaiveKellyBet (4 / 10) (6 / 10) (1 / 2) 1000 in
  let fraction := calculateNaiveKellyFraction (4 / 10) (6 / 10) (1 / 2) in
  0 <= amount bet <= 1000
  /\ amount bet = 1000 * fst fraction
  /\ outcome bet = snd fraction.
Proof.
  apply (calculateNaiveKellyBet_bounds (marketProb := 4 / 10) (6 / 10) (1 / 2)
           (bankroll := 1000)); lra.
Defined.

(** X9. For [marketProb] in (0,1), [estimatedProb] in [[0,1]] and
    [deferenceFactor] in [[0,1]]: a YES recommendation carries the fraction
    [deferenceFactor * (estimatedProb - marketProb) / (1 - marketProb)],
    which the clamp never changes; a NO recommendation carries
    [deferenceFactor * (marketProb - estimatedProb) / (1 - marketProb)]
    capped at 1, divided by [1 - marketProb] as for YES. *)
Theorem calculateNaiveKellyFraction_by_outcome
    (marketProb estimatedProb deferenceFactor : R) :
  0 < marketProb < 1 -> 0 <= estimatedProb <= 1 -> 0 <= deferenceFactor <= 1 ->
  let r := calculateNaiveKellyFraction marketProb estimatedProb deferenceFactor in
  (estimatedProb > marketProb ->
     snd r = YES
     /\ fst r = deferenceFactor * (estimatedProb - marketProb) / (1 - marketProb))
  /\ (estimatedProb <= marketProb ->
     snd r = NO
     /\ fst r = Rmin 1 (deferenceFactor * (marketProb - estimatedProb)
                        / (1 - marketProb))).
Proof.
  intros Hm He Hk r. subst r. unfold calculateNaiveKellyFraction. cbn [fst snd].
  rewrite lit_0, lit_1.
  cbn [Math_min Math_max Math_abs mul div sub ltb real_number].
  assert (Hd : 0 < / (1 - marketProb)) by (apply Rinv_0_lt_compat; lra).
  split; intros Hcmp.
  - replace (Rltb marketProb estimatedProb) with true
      by (symmetry; apply Rltb_true; lra).
    split; [reflexivity|].
    rewrite Rabs_right by lra.
    assert (Hle : deferenceFactor
                  * ((estimatedProb - marketProb) / (1 - marketProb)) <= 1).
    { assert ((estimatedProb - marketProb) / (1 - marketProb) <= 1).
      { apply Rmult_le_reg_r with (1 - marketProb); [lra|].
        unfold Rdiv. rewrite Rmult_assoc, Rinv_l by lra. lra. }
      assert (0 <= (estimatedProb - marketProb) / (1 - marketProb)).
      { unfold Rdiv. apply Rmult_le_pos; lra. }
      nra. }
    assert (Hge : 0 <= deferenceFactor
                       * ((estimatedProb - marketProb) / (1 - marketProb))).
    { apply Rmult_le_pos; [lra|]. unfold Rdiv. apply Rmult_le_pos; lra. }
    rewrite Rmax_left by lra. rewrite Rmin_left by lra. unfold Rdiv. ring.
  - replace (Rltb marketProb estimatedProb) with false
      by (symmetry; apply Rltb_false; lra).
    split; [reflexivity|].
    replace (Rabs (estimatedProb - marketProb)) with (marketProb - estimatedProb).
    2:{ rewrite Rabs_left1 by lra. ring. }
    assert (Hge : 0 <= deferenceFactor
                       * ((marketProb - estimatedProb) / (1 - marketProb))).
    { apply Rmult_le_pos; [lra|]. unfold Rdiv. apply Rmult_le_pos; lra. }
    rewrite Rmax_left by lra. rewrite Rmin_comm. f_equal. unfold Rdiv. ring.
Qed.

Lemma calculateNaiveKellyFraction_by_outcome_witness :
  snd (calculateNaiveKellyFraction (9 / 10) (1 / 10) 1) = NO
  /\ fst (calculateNaiveKellyFraction (9 / 10) (1 / 10) 1)
     = Rmin 1 (1 * (9 / 10 - 1 / 10) / (1 - 9 / 10)).
Proof.
  apply (calculateNaiveKellyFraction_by_outcome (marketProb := 9 / 10)
           (estimatedProb := 1 / 10) (deferenceFactor := 1)); lra.
Defined.

End MoreIdealFacts.

Module RootIdealFacts.

Import Ideal IdealFacts.
Local Open Scope R_scope.

(** X10. The central difference [D] is exact on polynomials of degree at
    most two, for every step [h] other than 0. *)
Theorem D_exact_on_quadratics (a b c x h : R) :
  h <> 0 ->
  D (fun y : R => a * y * y + b * y + c) x h = 2 * a * x + b.
Proof.
  intros Hh. unfold D. rewrite lit_2. cbn [add sub mul div real_number].
  field. exact Hh.
Qed.

Lemma D_exact_on_quadratics_witness :
  D (fun y : R => 1 * y * y + 0 * y + 0) 3 D_default_h = 2 * 1 * 3 + 0.
Proof. apply D_exact_on_quadratics. apply D_default_h_nonzero. Defined.

Lemma newtonStep_affine (a b lowerBound upperBound x : R) :
  a <> 0 ->
  lowerBound <= - b / a <= upperBound ->
  newtonStep (fun y : R => a * y + b) lowerBound upperBound x = - b / a.
Proof.
  intros Ha Hc. unfold newtonStep.
  replace (D (fun y : R => a * y + b) x D_default_h) with a.
  2:{ unfold D. rewrite lit_2. cbn [add sub mul div real_number].
      field. apply D_default_h_nonzero. }
  cbn [ltb sub div real_number].
  replace (x - (a * x + b) / a) with (- b / a) by (field; exact Ha).
  destruct (Rltb (- b / a) lowerBound) eqn:Elo.
  - apply Rltb_true in Elo. lra.
  - destruct (Rltb upperBound (- b / a)) eqn:Ehi.
    + apply Rltb_true in Ehi. lra.
    + reflexivity.
Qed.

Lemma findRoot_loop_fixed (f : R -> R) (lo hi tol : R) (remaining i : nat)
    (c : R) :
  newtonStep f lo hi c = c ->
  root (findRoot_loop f lo hi tol remaining i c) = c.
Proof.
  intros Hfix. revert i.
  induction remaining as [|remaining IH]; intros i; cbn [findRoot_loop].
  - reflexivity.
  - rewrite Hfix. destruct (ltb _ tol); [reflexivity | apply IH].
Qed.

(** X12. On [f(x) = a*x + b] with [a <> 0] and the root [-b/a] within the
    bounds, [findRoot] returns the root exactly, for every tolerance and
    every iteration cap of at least one. *)
Theorem findRoot_solves_affine (a b lowerBound upperBound tolerance : R)
    (iterations : nat) :
  a <> 0 ->
  lowerBound <= - b / a <= upperBound ->
  (0 < iterations)%nat ->
  findRoot (fun y : R => a * y + b) lowerBound upperBound iterations tolerance
  = - b / a.
Proof.
  intros Ha Hc Hn. destruct iterations as [|remaining]; [lia|].
  unfold findRoot, findRoot_search. cbn [findRoot_loop].
  rewrite (newtonStep_affine _ Ha Hc).
  destruct (ltb _ tolerance); [reflexivity|].
  apply findRoot_loop_fixed. apply newtonStep_affine; assumption.
Qed.

Lemma findRoot_solves_affine_witness :
  findRoot (fun y : R => 2 * y + -6) 0 10 default_iterations default_tolerance
  = - -6 / 2.
Proof.
  apply findRoot_solves_affine; [lra | lra | unfold default_iterations; lia].
Defined.

(** X13. With a tolerance that is not positive no pass passes the
    convergence test: [findRoot] runs all [iterations] passes and returns
    the last estimate from after the loop. *)
Theorem findRoot_never_settles_without_tolerance (f : R -> R)
    (lowerBound upperBound tolerance : R) (iterations : nat) :
  tolerance <= 0 ->
  findRoot_search f lowerBound upperBound iterations tolerance
  = LastEstimate
      (iterate f lowerBound upperBound iterations
               ((lowerBound + upperBound) / 2)).
Proof.
  intros Htol. unfold findRoot_search, iterate.
  rewrite lit_2. cbn [add div real_number].
  generalize ((lowerBound + upperBound) / 2) as x. generalize 0%nat as i.
  induction iterations as [|n IH]; intros i x; cbn [findRoot_loop].
  - reflexivity.
  - cbn [ltb Math_abs sub real_number].
    replace (Rltb _ tolerance) with false.
    + rewrite IH. rewrite Nat.iter_succ_r. reflexivity.
    + symmetry. apply Rltb_false.
      pose proof (Rabs_pos (newtonStep f lowerBound upperBound x - x)). lra.
Qed.

Lemma findRoot_never_settles_without_tolerance_witness :
  findRoot_search (fun x : R => x - 3) 0 10 default_iterations 0
  = LastEstimate (iterate (fun x : R => x - 3) 0 10 default_iterations
                          ((0 + 10) / 2)).
Proof. apply findRoot_never_settles_without_tolerance. lra. Defined.

End RootIdealFacts.

(** ** Exact arithmetic: masses and expectations of the distributions *)

Module MorePayoutFacts.

Import Ideal IdealFacts PayoutFacts.
Local Open Scope R_scope.

(** X14. The masses of the PMF that the cartesian method returns sum to 1,
    for every list of positions, whatever their probabilities and payouts. *)
Theorem cartesian_masses_sum_to_one (bets : list (PositionModel R)) :
  total_mass (computePayoutDistribution bets "cartesian") = 1.
Proof. apply cartesian_total_mass. Qed.

Lemma fold_right_rev_product (g : PositionModel R -> R)
    (l : list (PositionModel R)) (c : R) :
  fold_right (fun bet acc => acc * g bet) c (rev l) = c * Rprod (map g l).
Proof.
  unfold Rprod. revert c.
  induction l as [|a l IH]; intros c; cbn [rev map fold_right].
  - lra.
  - rewrite fold_right_app. cbn [fold_right]. rewrite IH. lra.
Qed.

(** X15. The masses of the PMF that the convolution method returns sum to
    the product, over the positions, of 1 for a position with a payout other
    than 0 and of its probability for a position that pays 0. *)
Theorem convolution_mass_is_product (bets : list (PositionModel R)) :
  total_mass (computePayoutDistribution bets "convolution")
  = Rprod (map betDistribution_mass bets).
Proof.
  rewrite convolution_total_mass, fold_right_rev_product. lra.
Qed.

(** X16. When no position pays 0, the two methods of
    [computePayoutDistribution] return maps with the same keys and the same
    mass at every key. *)
Theorem methods_agree_without_zero_payouts (bets : list (PositionModel R)) :
  Forall (fun bet => payout bet <> 0) bets ->
  forall k : R,
    map_get (computePayoutDistribution bets "convolution") k
    = map_get (computePayoutDistribution bets "cartesian") k.
Proof. apply methods_agree_on_nonzero_payouts. Qed.

Lemma two_paying_positions :
  Forall (fun bet : PositionModel R => payout bet <> 0)
         [ {| probability := 1 / 2; payout := 4; loan := None |};
           {| probability := 1 / 2; payout := 6; loan := None |} ].
Proof. repeat (apply Forall_cons; [cbn [payout]; lra|]). apply Forall_nil. Qed.

Lemma methods_agree_without_zero_payouts_witness :
  map_get (computePayoutDistribution
             [ {| probability := 1 / 2; payout := 4; loan := None |};
               {| probability := 1 / 2; payout := 6; loan := None |} ]
             "convolution") 10
  = map_get (computePayoutDistribution
               [ {| probability := 1 / 2; payout := 4; loan := None |};
                 {| probability := 1 / 2; payout := 6; loan := None |} ]
               "cartesian") 10.
Proof.
  apply methods_agree_without_zero_payouts. exact two_paying_positions.
Defined.

(** *** Expectations *)

Lemma integrateOverPmf_sum (g : R -> R) (m : PMF R) :
  integrateOverPmf g m = expectation g m.
Proof.
  unfold integrateOverPmf, expectation.
  rewrite (fold_left_add (fun e => mul (g (fst e)) (snd e))), lit_0.
  cbn [mul real_number]. lra.
Qed.

Lemma expectation_accumulate1 (g : R -> R) (m : PMF R) (e : R * R) :
  expectation g (accumulate1 m e) = expectation g m + g (fst e) * snd e.
Proof.
  unfold accumulate1, expectation, Rsum. destruct e as [k p]. cbn [fst snd].
  induction m as [|[k' v'] m IH]; cbn [map_set map_get map fst snd fold_right].
  - rewrite or_zero_None. cbn [add map_key real_number]. lra.
  - cbn [same_value_zero real_number].
    destruct (Reqb k' k) eqn:E.
    + apply Reqb_true in E. subst k'. rewrite or_zero_Some.
      cbn [map fst snd fold_right add real_number]. lra.
    + cbn [map fst snd fold_right]. rewrite IH. lra.
Qed.

Lemma expectation_accumulate (g : R -> R) (l : list (R * R)) (m : PMF R) :
  expectation g (accumulate l m) = expectation g m + expectation g l.
Proof.
  unfold accumulate. revert m.
  induction l as [|e l IH]; intros m; cbn [fold_left].
  - unfold expectation at 3, Rsum. cbn [map fold_right]. lra.
  - rewrite IH, expectation_accumulate1.
    unfold expectation at 4, Rsum. cbn [map fold_right].
    unfold expectation, Rsum. lra.
Qed.

Lemma integrateOverPmf_cartesian (g : R -> R) (bets : list (PositionModel R)) :
  integrateOverPmf g (computePayoutDistribution bets "cartesian")
  = expectation g (cartesianPairs bets).
Proof.
  unfold computePayoutDistribution. cbn [String.eqb Ascii.eqb Bool.eqb].
  rewrite integrateOverPmf_sum, computePayoutPMFCartesian_accumulate,
    expectation_accumulate.
  unfold expectation at 1, Rsum. cbn [map fold_right]. lra.
Qed.

Lemma outcomes_as_pairs (bets : list (PositionModel R)) :
  map asPair (outcomeProbsAndPayouts bets) = cartesianPairs bets.
Proof.
  unfold outcomeProbsAndPayouts, cartesianPairs. rewrite map_map. reflexivity.
Qed.

(** X17. Integrating a function [g] over the PMF of the cartesian method
    gives the sum, over the enumerated outcomes, of [g] at the outcome's
    payout times the outcome's probability: merging outcomes of equal payout
    loses nothing. *)
Theorem integrateOverPmf_over_outcomes (g : R -> R)
    (bets : list (PositionModel R)) :
  integrateOverPmf g (computePayoutDistribution bets "cartesian")
  = Rsum (map (fun o => g (outcome_payout o) * outcome_probability o)
              (outcomeProbsAndPayouts bets)).
Proof.
  rewrite integrateOverPmf_cartesian, <- outcomes_as_pairs.
  unfold expectation. rewrite map_map. reflexivity.
Qed.

(** X18. [integrateOverPmf] is linear in the function integrated, and
    integrates a constant to the constant times the total mass. *)
Theorem integrateOverPmf_linear (f g : R -> R) (a b c : R) (pmf : PMF R) :
  integrateOverPmf (fun x => a * f x + b * g x) pmf
    = a * integrateOverPmf f pmf + b * integrateOverPmf g pmf
  /\ integrateOverPmf (fun _ => c) pmf = c * total_mass pmf.
Proof.
  rewrite !integrateOverPmf_sum, total_mass_sum. unfold expectation. split.
  - rewrite (Rsum_map_ext _ (fun e => a * (f (fst e) * snd e)
                                      + b * (g (fst e) * snd e)))
      by (intros; ring).
    rewrite Rsum_map_plus, (Rsum_scale a (fun e => f (fst e) * snd e)),
      (Rsum_scale b (fun e => g (fst e) * snd e)).
    reflexivity.
  - apply (Rsum_scale c snd).
Qed.

Lemma expectation_id_pairs (l1 l2 : list (R * R)) :
  expectation (fun x => x) (pairs l1 l2)
  = expectation (fun x => x) l1 * Rsum (map snd l2)
    + Rsum (map snd l1) * expectation (fun x => x) l2.
Proof.
  unfold expectation.
  induction l1 as [|e1 l1 IH].
  - unfold Rsum. cbn [pairs flat_map map fold_right]. lra.
  - change (pairs (e1 :: l1) l2)
      with (map (fun e2 => (fst e1 + fst e2, snd e1 * snd e2)) l2 ++ pairs l1 l2).
    rewrite map_app, Rsum_app, IH, map_map. cbn [fst snd].
    rewrite (Rsum_map_ext _ (fun e2 => (fst e1 * snd e1) * snd e2
                                       + snd e1 * (fst e2 * snd e2)))
      by (intros; ring).
    rewrite Rsum_map_plus, (Rsum_scale (fst e1 * snd e1) snd),
      (Rsum_scale (snd e1) (fun e2 => fst e2 * snd e2)).
    unfold Rsum. cbn [map fold_right]. lra.
Qed.

Lemma expected_value_moments (pmf1 pmf2 : PMF R) :
  computeExpectedValue (convolveDistributions pmf1 pmf2)
  = computeExpectedValue pmf1 * total_mass pmf2
    + total_mass pmf1 * computeExpectedValue pmf2.
Proof.
  change (@computeExpectedValue R real_number)
    with (integrateOverPmf (fun x : R => x)).
  rewrite !integrateOverPmf_sum, convolveDistributions_accumulate,
    expectation_accumulate, expectation_id_pairs, !total_mass_sum.
  unfold expectation at 1, Rsum. cbn [map fold_right]. lra.
Qed.

(** X19. For any two maps, the total mass of [convolveDistributions] is the
    product of their total masses, and its expected value is
    [E1 * M2 + M1 * E2] for their expected values [E1], [E2] and total
    masses [M1], [M2]: the sum of the expected values when both masses
    are 1. *)
Theorem convolveDistributions_moments (pmf1 pmf2 : PMF R) :
  total_mass (convolveDistributions pmf1 pmf2)
    = total_mass pmf1 * total_mass pmf2
  /\ computeExpectedValue (convolveDistributions pmf1 pmf2)
     = computeExpectedValue pmf1 * total_mass pmf2
       + total_mass pmf1 * computeExpectedValue pmf2.
Proof.
  split; [apply convolveDistributions_total_mass | apply expected_value_moments].
Qed.

Lemma expectation_id_cartesianPairs (bets : list (PositionModel R)) :
  expectation (fun x => x) (cartesianPairs bets) = expectedPayout bets.
Proof.
  unfold expectedPayout.
  induction bets as [|bet bets IH] using rev_ind.
  - unfold cartesianPairs, expectation, Rsum.
    cbn [map cartesianProduct fold_left summary fst snd fold_right].
    rewrite lit_0. lra.
  - rewrite cartesianPairs_snoc, expectation_id_pairs, IH, cartesianPairs_total.
    rewrite map_app, Rsum_app.
    unfold expectation, Rsum.
    cbn [branches map asPair fst snd fold_right outcome_probability
         outcome_payout sub real_number].
    rewrite lit_0, lit_1. lra.
Qed.

(** X20. The expected value of the PMF of the cartesian method is the sum
    over the positions of [probability * payout]. *)
Theorem expected_value_of_cartesian (bets : list (PositionModel R)) :
  computeExpectedValue (computePayoutDistribution bets "cartesian")
  = expectedPayout bets.
Proof.
  change (computeExpectedValue (computePayoutDistribution bets "cartesian"))
    with (integrateOverPmf (fun x => x)
            (computePayoutDistribution bets "cartesian")).
  rewrite integrateOverPmf_cartesian. apply expectation_id_cartesianPairs.
Qed.

(** X21. When no position pays 0, the expected value of the PMF of the
    convolution method is the sum over the positions of
    [probability * payout]. *)
Theorem expected_value_of_convolution (bets : list (PositionModel R)) :
  Forall (fun bet => payout bet <> 0) bets ->
  computeExpectedValue (computePayoutDistribution bets "convolution")
  = expectedPayout bets.
Proof.
  intros Hall.
  induction bets as [|bet bets IH] using rev_ind.
  - unfold computePayoutDistribution, computePayoutPMFConvolution, map_new,
      computeExpectedValue, expectedPayout, Rsum.
    cbn [String.eqb Ascii.eqb Bool.eqb fold_left map_set fst snd map_key
         real_number map fold_right].
    rewrite lit_0. cbn [add mul real_number]. lra.
  - apply Forall_app in Hall. destruct Hall as [Hbets Hbet].
    inversion Hbet as [|? ? Hpay _]; subst.
    pose proof (convolution_total_mass_nonzero_payouts Hbets) as Hmass.
    specialize (IH Hbets).
    unfold computePayoutDistribution in *.
    cbn [String.eqb Ascii.eqb Bool.eqb] in *.
    rewrite computePayoutPMFConvolution_snoc, expected_value_moments, IH, Hmass.
    rewrite betDistribution_total_mass.
    rewrite (betDistribution_nonzero_payout bet Hpay).
    unfold betDistribution_mass.
    destruct (Req_dec_T 0 (payout bet)); [congruence|].
    unfold expectedPayout. rewrite map_app, Rsum_app.
    unfold computeExpectedValue, branches, Rsum.
    cbn [map asPair fold_left fold_right fst snd outcome_payout
         outcome_probability].
    rewrite lit_0, lit_1. cbn [add sub mul real_number]. lra.
Qed.

Lemma expected_value_of_convolution_witness :
  computeExpectedValue
    (computePayoutDistribution
       [ {| probability := 1 / 2; payout := 4; loan := None |};
         {| probability := 1 / 2; payout := 6; loan := None |} ]
       "convolution")
  = expectedPayout
      [ {| probability := 1 / 2; payout := 4; loan := None |};
        {| probability := 1 / 2; payout := 6; loan := None |} ].
Proof.
  apply expected_value_of_convolution. exact two_paying_positions.
Defined.

End MorePayoutFacts.

(** ** Exact arithmetic: small inputs *)

Module SmallInputs.

Import Ideal IdealFacts PayoutFacts MorePayoutFacts.
Local Open Scope R_scope.

Lemma pair_eq (a a' b b' : R) : a = a' -> b = b' -> (a, b) = (a', b').
Proof. intros -> ->. reflexivity. Qed.

Lemma cartesian_single (bet : PositionModel R) :
  computePayoutDistribution [bet] "cartesian"
  = if Req_dec_T 0 (payout bet)
    then [(0, 1)]
    else [(0, 1 - probability bet); (payout bet, probability bet)].
Proof.
  unfold computePayoutDistribution. cbn [String.eqb Ascii.eqb Bool.eqb].
  unfold computePayoutPMFCartesian, outcomeProbsAndPayouts.
  cbn [map cartesianProduct fold_left flat_map app outcome_payout
       outcome_probability map_set map_get map_key same_value_zero real_number].
  rewrite !or_zero_None.
  rewrite lit_0, lit_1. cbn [add sub mul real_number].
  unfold Reqb.
  destruct (Req_dec_T 0 (payout bet)) as [E | E].
  - destruct (Req_dec_T (0 + 0) (0 + payout bet)) as [_ | E']; [|exfalso; apply E'; lra].
    rewrite or_zero_Some. f_equal. apply pair_eq; lra.
  - destruct (Req_dec_T (0 + 0) (0 + payout bet)) as [E' | _]; [exfalso; apply E; lra|].
    cbn [map_get]. rewrite or_zero_None.
    f_equal; [apply pair_eq; lra|]. f_equal. apply pair_eq; lra.
Qed.

Lemma convolution_single (bet : PositionModel R) :
  computePayoutDistribution [bet] "convolution"
  = if Req_dec_T 0 (payout bet)
    then [(0, probability bet)]
    else [(0, 1 - probability bet); (payout bet, probability bet)].
Proof.
  unfold computePayoutDistribution. cbn [String.eqb Ascii.eqb Bool.eqb].
  unfold computePayoutPMFConvolution, map_new, convolveDistributions.
  cbn [fold_left fst snd map_set map_get map_key same_value_zero real_number].
  rewrite lit_0, lit_1. cbn [add sub mul real_number].
  unfold Reqb.
  destruct (Req_dec_T 0 (payout bet)) as [E | E].
  - cbn [fold_left fst snd map_set map_get]. rewrite or_zero_None.
    cbn [add mul map_key real_number]. f_equal. apply pair_eq; lra.
  - cbn [fold_left fst snd map_set map_get map_key same_value_zero real_number].
    rewrite !or_zero_None. unfold Reqb.
    destruct (Req_dec_T (0 + 0) (0 + payout bet)) as [E' | _]; [exfalso; apply E; lra|].
    cbn [map_get]. rewrite ?or_zero_None. cbn [add mul map_key real_number].
    f_equal; [apply pair_eq; lra|]. f_equal. apply pair_eq; lra.
Qed.

(** X22. For one position: when its payout is not 0, both methods return
    [{0: 1 - probability, payout: probability}]; when it pays 0, the
    cartesian method returns [{0: 1}] and the convolution method
    [{0: probability}]. *)
Theorem single_position_distribution (bet : PositionModel R) :
  (payout bet <> 0 ->
     computePayoutDistribution [bet] "cartesian"
       = [(0, 1 - probability bet); (payout bet, probability bet)]
     /\ computePayoutDistribution [bet] "convolution"
       = [(0, 1 - probability bet); (payout bet, probability bet)])
  /\ (payout bet = 0 ->
     computePayoutDistribution [bet] "cartesian" = [(0, 1)]
     /\ computePayoutDistribution [bet] "convolution" = [(0, probability bet)]).
Proof.
  rewrite cartesian_single, convolution_single.
  destruct (Req_dec_T 0 (payout bet)); split; intros H; try congruence;
    split; reflexivity.
Qed.

Lemma single_position_distribution_witness :
  computePayoutDistribution
    [ {| probability := 3 / 10; payout := 10; loan := None |} ] "cartesian"
  = [(0, 1 - 3 / 10); (10, 3 / 10)].
Proof.
  apply (proj1 (single_position_distribution
                  {| probability := 3 / 10; payout := 10; loan := None |})).
  cbn [payout]. lra.
Defined.

(** X23. For no position at all, both methods return [{0: 1}], the
    cumulative distribution is [{0: 1}], and the expected value is 0. *)
Theorem no_positions :
  computePayoutDistribution (@nil (PositionModel R)) "cartesian" = [(0, 1)]
  /\ computePayoutDistribution (@nil (PositionModel R)) "convolution" = [(0, 1)]
  /\ computeCumulativeDistribution (@nil (PositionModel R)) "cartesian"
     = Returns [(0, 1)]
  /\ computeExpectedValue
       (computePayoutDistribution (@nil (PositionModel R)) "cartesian") = 0.
Proof.
  unfold computePayoutDistribution, computeCumulativeDistribution.
  cbn [String.eqb Ascii.eqb Bool.eqb].
  unfold computePayoutPMFCartesian, computePayoutPMFConvolution,
    computeCumulativeDistributionCartesian, outcomeProbsAndPayouts, map_new,
    computeExpectedValue, cumulate.
  cbn [map cartesianProduct fold_left fold_right sort_by_payout insert_by_payout
       outcome_payout outcome_probability map_set map_get map_key fst snd
       real_number].
  rewrite or_zero_None, lit_0, lit_1. cbn [add mul real_number].
  repeat split; try reflexivity.
  - f_equal. apply pair_eq; lra.
  - f_equal. f_equal. apply pair_eq; lra.
  - lra.
Qed.

End SmallInputs.

(** ** Exact arithmetic: the cumulative distribution *)

Module CumulativeFacts.

Import Ideal IdealFacts PayoutFacts MorePayoutFacts.
Local Open Scope R_scope.

Lemma insert_by_payout_cons (a b : BetOutcome R) (rest : list (BetOutcome R)) :
  insert_by_payout a (b :: rest)
  = if Rltb 0 (outcome_payout a - outcome_payout b)
    then b :: insert_by_payout a rest else a :: b :: rest.
Proof. cbn [insert_by_payout ltb sub real_number]. rewrite lit_0. reflexivity. Qed.

Lemma Forall_insert (P : BetOutcome R -> Prop) (a : BetOutcome R)
    (l : list (BetOutcome R)) :
  P a -> Forall P l -> Forall P (insert_by_payout a l).
Proof.
  intros Ha Hl. induction Hl as [|b rest Hb Hrest IH].
  - repeat constructor. exact Ha.
  - rewrite insert_by_payout_cons. destruct (Rltb _ _); repeat constructor; assumption.
Qed.

Lemma ascending_insert (a : BetOutcome R) (l : list (BetOutcome R)) :
  ascending l -> ascending (insert_by_payout a l).
Proof.
  induction l as [|b rest IH]; intros Hasc.
  - cbn. auto.
  - destruct Hasc as [Hb Hrest]. rewrite insert_by_payout_cons.
    destruct (Rltb 0 (outcome_payout a - outcome_payout b)) eqn:E.
    + apply Rltb_true in E. cbn [ascending]. split; [|apply IH; exact Hrest].
      apply Forall_insert; [lra | exact Hb].
    + apply Rltb_false in E. cbn [ascending]. repeat split; try assumption.
      constructor; [lra|].
      eapply Forall_impl; [|exact Hb]. cbn beta. intros c Hc. lra.
Qed.

Lemma ascending_sort (l : list (BetOutcome R)) : ascending (sort_by_payout l).
Proof.
  induction l as [|a l IH]; cbn [sort_by_payout fold_right].
  - exact I.
  - apply ascending_insert. exact IH.
Qed.

Lemma occurs_cumulative_insert (a : BetOutcome R) (l : list (BetOutcome R)) (k : R) :
  occurs (insert_by_payout a l) k = occurs (a :: l) k
  /\ cumulative (insert_by_payout a l) k = cumulative (a :: l) k.
Proof.
  unfold occurs, cumulative, Rsum.
  induction l as [|b rest [IHo IHc]].
  - split; reflexivity.
  - rewrite insert_by_payout_cons. destruct (Rltb _ _).
    + cbn [existsb map fold_right] in *. rewrite IHo, IHc. split.
      * destruct (Reqb (outcome_payout a) k), (Reqb (outcome_payout b) k); reflexivity.
      * lra.
    + split; reflexivity.
Qed.

Lemma occurs_cumulative_sort (l : list (BetOutcome R)) (k : R) :
  occurs (sort_by_payout l) k = occurs l k
  /\ cumulative (sort_by_payout l) k = cumulative l k.
Proof.
  induction l as [|a l [IHo IHc]]; cbn [sort_by_payout fold_right].
  - split; reflexivity.
  - destruct (occurs_cumulative_insert a (sort_by_payout l) k) as [Ho Hc].
    fold (sort_by_payout l). rewrite Ho, Hc.
    unfold occurs, cumulative, Rsum in *. cbn [existsb map fold_right].
    rewrite IHo, IHc. split; reflexivity.
Qed.

Lemma occurs_payout (l : list (BetOutcome R)) (k : R) :
  occurs l k = true <-> exists o, In o l /\ outcome_payout o = k.
Proof.
  unfold occurs. rewrite existsb_exists.
  split; intros (o & Hin & Ho); exists o; (split; [exact Hin|]);
    apply Reqb_true; exact Ho.
Qed.

Lemma cumulative_above (l : list (BetOutcome R)) (k : R) :
  Forall (fun b => k <= outcome_payout b) l ->
  occurs l k = false ->
  cumulative l k = 0.
Proof.
  unfold occurs, cumulative, Rsum.
  induction 1 as [|b rest Hb Hrest IH]; cbn [existsb map fold_right]; intros Hocc.
  - reflexivity.
  - apply orb_false_iff in Hocc. destruct Hocc as [E Hocc].
    apply Reqb_false in E. rewrite IH by exact Hocc.
    destruct (Rle_dec (outcome_payout b) k); [|lra].
    exfalso. apply E. lra.
Qed.

Lemma cumulate_cons (o : BetOutcome R) (l : list (BetOutcome R)) (m : CDF R) (c : R) :
  cumulate (o :: l) (m, c)
  = cumulate l (map_set m (outcome_payout o) (c + outcome_probability o),
                c + outcome_probability o).
Proof. reflexivity. Qed.

Lemma cumulate_spec (l : list (BetOutcome R)) :
  ascending l ->
  forall (m : CDF R) (c k : R),
    map_get (fst (cumulate l (m, c))) k
    = if occurs l k then Some (c + cumulative l k) else map_get m k.
Proof.
  induction l as [|o rest IH]; intros Hasc m c k.
  - reflexivity.
  - destruct Hasc as [Ho Hrest]. rewrite cumulate_cons, (IH Hrest).
    unfold occurs at 2, cumulative at 2, Rsum. cbn [existsb map fold_right].
    fold (Rsum (map (fun o0 => if Rle_dec (outcome_payout o0) k
                               then outcome_probability o0 else 0) rest)).
    fold (cumulative rest k). fold (occurs rest k).
    destruct (occurs rest k) eqn:Eocc.
    + rewrite orb_true_r. f_equal.
      apply occurs_payout in Eocc. destruct Eocc as (b & Hin & Hb).
      rewrite Forall_forall in Ho. specialize (Ho b Hin). rewrite Hb in Ho.
      destruct (Rle_dec (outcome_payout o) k); [lra | contradiction].
    + rewrite orb_false_r.
      destruct (Reqb (outcome_payout o) k) eqn:E.
      * apply Reqb_true in E. subst k. rewrite map_get_set_same. f_equal.
        rewrite (cumulative_above Ho Eocc).
        destruct (Rle_dec (outcome_payout o) (outcome_payout o)); lra.
      * apply map_get_set_other. exact E.
Qed.

Lemma map_get_cumulative (bets : list (PositionModel R)) (k : R) :
  map_get (computeCumulativeDistributionCartesian bets) k
  = if occurs (outcomeProbsAndPayouts bets) k
    then Some (cumulative (outcomeProbsAndPayouts bets) k) else None.
Proof.
  unfold computeCumulativeDistributionCartesian.
  rewrite (cumulate_spec _ (ascending_sort _)), lit_0.
  destruct (occurs_cumulative_sort (outcomeProbsAndPayouts bets) k) as [Ho Hc].
  rewrite Ho, Hc. rewrite Rplus_0_l. reflexivity.
Qed.


Lemma outcome_probabilities_total (bets : list (PositionModel R)) :
  Rsum (map (@outcome_probability R) (outcomeProbsAndPayouts bets)) = 1.
Proof.
  rewrite <- (cartesianPairs_total bets), <- outcomes_as_pairs, map_map.
  reflexivity.
Qed.

Lemma pairs_nonnegative (l1 l2 : list (R * R)) :
  Forall (fun e => 0 <= snd e) l1 -> Forall (fun e => 0 <= snd e) l2 ->
  Forall (fun e => 0 <= snd e) (pairs l1 l2).
Proof.
  intros H1 H2. unfold pairs. apply Forall_flat_map.
  eapply Forall_impl; [|exact H1]. cbn beta. intros e1 He1.
  apply Forall_map. eapply Forall_impl; [|exact H2]. cbn beta. intros e2 He2.
  cbn [snd]. apply Rmult_le_pos; assumption.
Qed.

Lemma outcome_probabilities_nonnegative (bets : list (PositionModel R)) :
  Forall (fun bet => 0 <= probability bet <= 1) bets ->
  Forall (fun o => 0 <= outcome_probability o) (outcomeProbsAndPayouts bets).
Proof.
  intros Hall.
  assert (Hpairs : Forall (fun e => 0 <= snd e) (cartesianPairs bets)).
  { induction bets as [|bet bets IH] using rev_ind.
    - unfold cartesianPairs. cbn [map cartesianProduct fold_left summary].
      apply Forall_cons; [|apply Forall_nil].
      unfold summary. cbn [snd fold_left]. rewrite lit_1. lra.
    - apply Forall_app in Hall. destruct Hall as [Hbets Hbet].
      inversion Hbet as [|? ? Hp _]; subst.
      rewrite cartesianPairs_snoc. apply pairs_nonnegative; [apply IH; exact Hbets|].
      unfold branches. cbn [map asPair outcome_probability outcome_payout].
      apply Forall_cons; [|apply Forall_cons; [|apply Forall_nil]];
        unfold asPair; cbn [snd outcome_probability sub real_number];
        rewrite ?lit_1; lra. }
  rewrite <- outcomes_as_pairs in Hpairs. rewrite Forall_map in Hpairs.
  exact Hpairs.
Qed.

Lemma cumulative_monotone (l : list (BetOutcome R)) (k1 k2 : R) :
  Forall (fun o => 0 <= outcome_probability o) l ->
  k1 <= k2 ->
  0 <= cumulative l k1 <= cumulative l k2
  /\ cumulative l k2 <= Rsum (map (@outcome_probability R) l).
Proof.
  intros Hall Hk. unfold cumulative, Rsum.
  induction Hall as [|o rest Ho Hrest IH]; cbn [map fold_right].
  - lra.
  - destruct (Rle_dec (outcome_payout o) k1), (Rle_dec (outcome_payout o) k2);
      lra.
Qed.

Lemma cumulative_all (l : list (BetOutcome R)) (k : R) :
  Forall (fun o => outcome_payout o <= k) l ->
  cumulative l k = Rsum (map (@outcome_probability R) l).
Proof.
  unfold cumulative, Rsum.
  induction 1 as [|o rest Ho Hrest IH]; cbn [map fold_right].
  - reflexivity.
  - rewrite IH. destruct (Rle_dec (outcome_payout o) k); lra.
Qed.

Lemma occurs_is_key (bets : list (PositionModel R)) (k : R) :
  occurs (outcomeProbsAndPayouts bets) k = true
  <-> map_get (computeCumulativeDistributionCartesian bets) k <> None.
Proof.
  rewrite map_get_cumulative.
  destruct (occurs (outcomeProbsAndPayouts bets) k); split; congruence.
Qed.

(** X24. [computeCumulativeDistribution] throws "Not implemented" for the
    convolution method.  For the cartesian method it returns a map whose
    keys are the payouts of the enumerated outcomes and whose value at a key
    [k] is the probability that the enumerated outcomes pay at most [k]. *)
Theorem cumulative_distribution_spec (bets : list (PositionModel R)) :
  computeCumulativeDistribution bets "convolution" = Throws "Not implemented"
  /\ exists cdf : CDF R,
       computeCumulativeDistribution bets "cartesian" = Returns cdf
       /\ forall k : R,
            map_get cdf k
            = if occurs (outcomeProbsAndPayouts bets) k
              then Some (cumulative (outcomeProbsAndPayouts bets) k)
              else None.
Proof.
  split; [reflexivity|]. eexists. split; [reflexivity|].
  apply map_get_cumulative.
Qed.

(** X25. When every position's probability lies in [[0,1]], the values of
    the cumulative distribution lie in [[0,1]] and do not decrease as the
    key grows. *)
Theorem cumulative_distribution_monotone (bets : list (PositionModel R))
    (k1 k2 v1 v2 : R) :
  Forall (fun bet => 0 <= probability bet <= 1) bets ->
  map_get (computeCumulativeDistributionCartesian bets) k1 = Some v1 ->
  map_get (computeCumulativeDistributionCartesian bets) k2 = Some v2 ->
  k1 <= k2 ->
  0 <= v1 <= v2 /\ v2 <= 1.
Proof.
  intros Hall H1 H2 Hk. rewrite map_get_cumulative in H1, H2.
  destruct (occurs _ k1); [|discriminate]. destruct (occurs _ k2); [|discriminate].
  injection H1 as <-. injection H2 as <-.
  pose proof (cumulative_monotone (outcome_probabilities_nonnegative Hall) Hk) as Hm.
  rewrite outcome_probabilities_total in Hm. exact Hm.
Qed.

Lemma map_get_occurring (bets : list (PositionModel R)) (k : R) :
  (exists o, In o (outcomeProbsAndPayouts bets) /\ outcome_payout o = k) ->
  map_get (computeCumulativeDistributionCartesian bets) k
  = Some (cumulative (outcomeProbsAndPayouts bets) k).
Proof.
  intros Hocc. apply occurs_payout in Hocc.
  rewrite map_get_cumulative, Hocc. reflexivity.
Qed.

Lemma cumulative_distribution_monotone_witness :
  0 <= cumulative
         (outcomeProbsAndPayouts
            [ {| probability := 1 / 2; payout := 4; loan := None |} ]) 0
    <= cumulative
         (outcomeProbsAndPayouts
            [ {| probability := 1 / 2; payout := 4; loan := None |} ]) 4
  /\ cumulative
       (outcomeProbsAndPayouts
          [ {| probability := 1 / 2; payout := 4; loan := None |} ]) 4
     <= 1.
Proof.
  apply (cumulative_distribution_monotone
           (bets := [ {| probability := 1 / 2; payout := 4; loan := None |} ])
           (k1 := 0) (k2 := 4)).
  - apply Forall_cons; [cbn [probability]; lra | apply Forall_nil].
  - apply map_get_occurring. eexists. split; [left; reflexivity|].
    cbn [outcome_payout fold_left app payout add real_number].
    rewrite lit_0. lra.
  - apply map_get_occurring. eexists. split; [right; left; reflexivity|].
    cbn [outcome_payout fold_left app payout add real_number].
    rewrite lit_0. lra.
  - lra.
Defined.

(** X26. The value of the cumulative distribution at its largest key
    is 1. *)
Theorem cumulative_distribution_ends_at_one (bets : list (PositionModel R))
    (k v : R) :
  map_get (computeCumulativeDistributionCartesian bets) k = Some v ->
  (forall k', map_get (computeCumulativeDistributionCartesian bets) k' <> None ->
              k' <= k) ->
  v = 1.
Proof.
  intros Hk Htop. rewrite map_get_cumulative in Hk.
  destruct (occurs _ k); [|discriminate]. injection Hk as <-.
  rewrite cumulative_all; [apply outcome_probabilities_total|].
  apply Forall_forall. intros o Hin. apply Htop. apply occurs_is_key.
  apply occurs_payout. exists o. split; [exact Hin | reflexivity].
Qed.

Lemma cumulative_distribution_ends_at_one_witness :
  cumulative
    (outcomeProbsAndPayouts
       [ {| probability := 1 / 4; payout := 4; loan := None |} ]) 4
  = 1.
Proof.
  apply (cumulative_distribution_ends_at_one
           [ {| probability := 1 / 4; payout := 4; loan := None |} ] (k := 4)).
  - apply map_get_occurring. eexists. split; [right; left; reflexivity|].
    cbn [outcome_payout fold_left app payout add real_number].
    rewrite lit_0. lra.
  - intros k' Hk'. apply occurs_is_key in Hk'. apply occurs_payout in Hk'.
    destruct Hk' as (o & Hin & Ho).
    destruct Hin as [<- | [<- | []]];
      cbn [outcome_payout fold_left app payout add real_number] in Ho;
      rewrite lit_0 in Ho; lra.
Defined.

End CumulativeFacts.

(** ** Exact arithmetic: the optimizers *)

Module OptimizerFacts.

Import Ideal IdealFacts PayoutFacts MorePayoutFacts SmallInputs.
Import MoreIdealFacts.
Local Open Scope R_scope.

(** X29. For a balance other than 0, the function [dEVdBet] that the
    portfolio variant solves for [optimalBet] is the mean of the function
    [dEVdBetIlliquidCashedOut] taken at an illiquid value of 0 and at twice
    the relative illiquid expected value [1000 / balance]. *)
Theorem dEVdBet_is_mean_of_cashed_out
    (getBinaryCpmmBetInfoWrapper : Outcome -> R -> string -> BetInfo R)
    (estimatedProb deferenceFactor : R) (marketSlug : string)
    (balance startingMarketProb : R) (outcome : Outcome) (betEstimate : R) :
  balance <> 0 ->
  let relativeIlliquidEV := 1000 / balance in
  let illiquidPmf :=
    computePayoutDistribution
      [ {| probability := lit (1 # 2);
           payout := mul (div (lit 1000) balance) (div (lit 1) (lit (1 # 2)));
           loan := None |} ] "cartesian" in
  let cashedOut := fun I : R =>
    dEVdBetIlliquidCashedOut getBinaryCpmmBetInfoWrapper estimatedProb
      deferenceFactor marketSlug balance I startingMarketProb outcome
      betEstimate in
  dEVdBet getBinaryCpmmBetInfoWrapper estimatedProb deferenceFactor marketSlug
          balance illiquidPmf startingMarketProb outcome betEstimate
  = (cashedOut 0 + cashedOut (2 * relativeIlliquidEV)) / 2.
Proof.
  intros Hbal rel pmf cashedOut.
  assert (Hpay : mul (div (lit 1000) balance) (div (lit 1) (lit (1 # 2)))
                 = 2 * rel).
  { subst rel. cbn. unfold Q2R. cbn. field. exact Hbal. }
  assert (Hnz : 2 * rel <> 0).
  { subst rel. unfold Rdiv. intros H.
    apply Rmult_integral in H. destruct H as [H | H]; [lra|].
    apply Rmult_integral in H. destruct H as [H | H]; [lra|].
    apply (Rinv_neq_0_compat balance Hbal). exact H. }
  assert (Hpmf : pmf = [(0, / 2); (2 * rel, / 2)]).
  { subst pmf. rewrite cartesian_single. cbn [payout probability].
    rewrite Hpay. destruct (Req_dec_T 0 (2 * rel)) as [E | _]; [congruence|].
    assert (Hhalf : (lit (1 # 2) : R) = / 2).
    { cbn. unfold Q2R. cbn. lra. }
    rewrite Hhalf. repeat f_equal. lra. }
  rewrite Hpmf.
  change (dEVdBet getBinaryCpmmBetInfoWrapper estimatedProb deferenceFactor
            marketSlug balance [(0, / 2); (2 * rel, / 2)] startingMarketProb
            outcome betEstimate)
    with (integrateOverPmf cashedOut [(0, / 2); (2 * rel, / 2)]).
  rewrite integrateOverPmf_sum. unfold expectation, Rsum.
  cbn [map fold_right fst snd]. lra.
Qed.

Lemma thousand_is_not_zero : (1000 <> 0)%R.
Proof. lra. Qed.

Lemma dEVdBet_is_mean_of_cashed_out_witness :
  let relativeIlliquidEV := 1000 / 1000 in
  let illiquidPmf :=
    computePayoutDistribution
      [ {| probability := lit (1 # 2);
           payout := mul (div (lit 1000) 1000) (div (lit 1) (lit (1 # 2)));
           loan := None |} ] "cartesian" in
  let cashedOut := fun I : R =>
    dEVdBetIlliquidCashedOut (constantProductMarket 5000 5000) (95 / 100) 1
      "market" 1000 I (1 / 2) YES 900 in
  dEVdBet (constantProductMarket 5000 5000) (95 / 100) 1 "market" 1000
          illiquidPmf (1 / 2) YES 900
  = (cashedOut 0 + cashedOut (2 * relativeIlliquidEV)) / 2.
Proof.
  exact (dEVdBet_is_mean_of_cashed_out (constantProductMarket 5000 5000)
           (95 / 100) 1 "market" (1 / 2) YES 900 thousand_is_not_zero).
Defined.

End OptimizerFacts.

(** ** Bounds of the searches, at every instance *)

Section BoundFacts.

Context {num : Type} {JS : JSNumber num}.

(** No number is below itself: true of the reals and, NaN included, of
    binary64 ([float_ltb_irreflexive] below). *)
Hypothesis ltb_irreflexive : forall x : num, ltb x x = false.

Lemma newtonStep_not_outside (f : num -> num) (lowerBound upperBound x : num) :
  ltb upperBound lowerBound = false ->
  not_outside lowerBound upperBound (newtonStep f lowerBound upperBound x).
Proof.
  intros Hord. unfold not_outside, newtonStep.
  set (xNext := sub x (div (f x) (D f x D_default_h))).
  destruct (ltb xNext lowerBound) eqn:Elo; cbn [orb].
  - split; [apply ltb_irreflexive | exact Hord].
  - destruct (ltb upperBound xNext) eqn:Ehi.
    + split; [exact Hord | apply ltb_irreflexive].
    + split; assumption.
Qed.

Lemma findRoot_loop_not_outside (f : num -> num)
    (lowerBound upperBound tolerance : num) (remaining i : nat) (x : num) :
  ltb upperBound lowerBound = false ->
  not_outside lowerBound upperBound x ->
  not_outside lowerBound upperBound
    (root (findRoot_loop f lowerBound upperBound tolerance remaining i x)).
Proof.
  intros Hord. revert i x.
  induction remaining as [|remaining IH]; intros i x Hx; cbn [findRoot_loop].
  - exact Hx.
  - destruct (ltb _ tolerance).
    + apply newtonStep_not_outside. exact Hord.
    + apply IH. apply newtonStep_not_outside. exact Hord.
Qed.

Lemma findRoot_not_outside (f : num -> num) (lowerBound upperBound : num)
    (remaining : nat) (tolerance : num) :
  ltb upperBound lowerBound = false ->
  not_outside lowerBound upperBound
    (findRoot f lowerBound upperBound (S remaining) tolerance).
Proof.
  intros Hord. unfold findRoot, findRoot_search. cbn [findRoot_loop].
  destruct (ltb _ tolerance).
  - apply newtonStep_not_outside. exact Hord.
  - apply findRoot_loop_not_outside; [exact Hord|].
    apply newtonStep_not_outside. exact Hord.
Qed.

(** X11. When [upperBound] is not below [lowerBound] and at least one pass
    is run, [findRoot] returns a value that compares neither below
    [lowerBound] nor above [upperBound], for every function and tolerance:
    a value within the bounds or, in binary64 arithmetic, NaN, which no
    comparison clamps. *)
Theorem findRoot_never_outside_bounds (f : num -> num)
    (lowerBound upperBound : num) (iterations : nat) (tolerance : num) :
  ltb upperBound lowerBound = false ->
  (0 < iterations)%nat ->
  not_outside lowerBound upperBound
    (findRoot f lowerBound upperBound iterations tolerance).
Proof.
  intros Hord Hn. destruct iterations as [|remaining]; [lia|].
  apply findRoot_not_outside. exact Hord.
Qed.

Variable fetchMarketCached : string -> CachedMarket num.
Variable getBinaryCpmmBetInfoWrapper : Outcome -> num -> string -> BetInfo num.

(** X27. When the market has a truthy starting probability [p] and the
    naive Kelly amount is not below 0, [calculateFullKellyBet] recommends
    the outcome of the naive Kelly bet and an amount that compares neither
    below 0 nor above the naive Kelly amount, whatever the bet simulator
    answers: an amount within [[0, naiveKellyAmount]] or, in binary64
    arithmetic, NaN. *)
Theorem calculateFullKellyBet_never_outside_naive
    (estimatedProb deferenceFactor : num) (marketSlug : string)
    (bankroll p : num) :
  startingMarketProb_of (fetchMarketCached marketSlug) = Some p ->
  truthy p = true ->
  ltb (amount (calculateNaiveKellyBet p estimatedProb deferenceFactor bankroll))
      (lit 0) = false ->
  let naive := calculateNaiveKellyBet p estimatedProb deferenceFactor bankroll in
  let bet :=
    calculateFullKellyBet fetchMarketCached getBinaryCpmmBetInfoWrapper
      estimatedProb deferenceFactor marketSlug bankroll in
  full_outcome bet = outcome naive
  /\ not_outside (lit 0) (amount naive) (full_amount bet).
Proof.
  intros Hprob Hp Hnaive naive bet. subst naive bet.
  unfold calculateFullKellyBet. rewrite Hprob.
  cbn [not_truthy or_else_zero]. rewrite Hp. cbn [negb full_amount full_outcome].
  split; [reflexivity|].
  apply findRoot_not_outside. exact Hnaive.
Qed.

(** X28. When the market has a truthy starting probability [p] and the
    naive Kelly amount is not below 0, the portfolio variant logs three
    roots and returns [optimalBet] as its amount.  [optimalBetInitial]
    compares neither below 0 nor above the naive Kelly amount; and when
    twice [optimalBetInitial] is not below half of it, [optimalBet] and
    [optimalBetHigh] each compare neither below half of
    [optimalBetInitial] nor above twice it.  In binary64 arithmetic each
    root is within its interval or NaN. *)
Theorem portfolio_roots_never_outside_intervals
    (estimatedProb deferenceFactor : num) (marketSlug : string)
    (balance portfolioValue p : num) :
  startingMarketProb_of (fetchMarketCached marketSlug) = Some p ->
  truthy p = true ->
  ltb (amount (calculateNaiveKellyBet p estimatedProb deferenceFactor balance))
      (lit 0) = false ->
  let naive := calculateNaiveKellyBet p estimatedProb deferenceFactor balance in
  exists r : PortfolioRoots num,
    loggedRoots fetchMarketCached getBinaryCpmmBetInfoWrapper
      estimatedProb deferenceFactor marketSlug balance portfolioValue = Some r
    /\ full_amount
         (calculateFullKellyBetWithPortfolio fetchMarketCached
            getBinaryCpmmBetInfoWrapper estimatedProb deferenceFactor
            marketSlug balance portfolioValue)
       = optimalBet r
    /\ not_outside (lit 0) (amount naive) (optimalBetInitial r)
    /\ (ltb (mul (optimalBetInitial r) (lit 2))
            (mul (optimalBetInitial r) (lit (1 # 2))) = false ->
        not_outside (mul (optimalBetInitial r) (lit (1 # 2)))
                    (mul (optimalBetInitial r) (lit 2)) (optimalBet r)
        /\ not_outside (mul (optimalBetInitial r) (lit (1 # 2)))
                       (mul (optimalBetInitial r) (lit 2)) (optimalBetHigh r)).
Proof.
  intros Hprob Hp Hnaive naive. subst naive.
  unfold loggedRoots, calculateFullKellyBetWithPortfolio,
    calculateFullKellyBetWithPortfolio_run.
  rewrite Hprob. cbn [not_truthy or_else_zero]. rewrite Hp. cbn [negb fst snd].
  eexists. split; [reflexivity|].
  cbn [optimalBetInitial optimalBet optimalBetHigh full_amount].
  split; [reflexivity|]. split.
  - apply findRoot_not_outside. exact Hnaive.
  - intros Hord. split; apply findRoot_not_outside; exact Hord.
Qed.

End BoundFacts.

(** *** The same at binary64 *)

Lemma SFltb_irreflexive (s : SpecFloat.spec_float) :
  SpecFloat.SFltb s s = false.
Proof.
  unfold SpecFloat.SFltb, SpecFloat.SFcompare.
  destruct s as [sg | sg | | sg m e]; try reflexivity.
  - destruct sg; reflexivity.
  - destruct sg; rewrite Z.compare_refl, Pos.compare_cont_refl; reflexivity.
Qed.

Lemma float_ltb_irreflexive (x : float) : PrimFloat.ltb x x = false.
Proof. rewrite FloatAxioms.ltb_spec. apply SFltb_irreflexive. Qed.

Lemma findRoot_never_outside_bounds_witness :
  not_outside 0%float 10%float
    (findRoot (fun _ : float => 0%float) 0%float 10%float default_iterations
              default_tolerance).
Proof.
  apply (findRoot_never_outside_bounds (JS := Float64.float_number)
           float_ltb_irreflexive).
  - reflexivity.
  - unfold default_iterations. lia.
Defined.

(** On the constant function 0 the derivative is 0 and the search returns
    NaN. *)
Lemma findRoot_of_flat_function :
  PrimFloat.is_nan
    (findRoot (fun _ : float => 0%float) 0%float 10%float default_iterations
              default_tolerance)
  = true.
Proof. vm_compute. reflexivity. Qed.

Lemma calculateFullKellyBet_never_outside_naive_witness :
  let naive := calculateNaiveKellyBet 0.5%float (lit (95 # 100)) 1%float
                                      1000%float in
  let bet :=
    calculateFullKellyBet (marketWithProbability 0.5%float)
      (constantProductMarket 5000%float 5000%float) (lit (95 # 100)) 1%float
      "market" 1000%float in
  full_outcome bet = outcome naive
  /\ not_outside (lit 0) (amount naive) (full_amount bet).
Proof.
  exact (calculateFullKellyBet_never_outside_naive
           (JS := Float64.float_number) float_ltb_irreflexive
           (marketWithProbability 0.5%float)
           (constantProductMarket 5000%float 5000%float) (lit (95 # 100))
           1%float "market" 1000%float eq_refl eq_refl eq_refl).
Defined.

(** When the estimate equals the market probability the naive Kelly amount
    is 0, the simulator is asked about a bet of 0, and the amount
    recommended is NaN. *)
Lemma calculateFullKellyBet_without_edge :
  PrimFloat.is_nan
    (full_amount
       (calculateFullKellyBet (marketWithProbability 0.5%float)
          (constantProductMarket 5000%float 5000%float) 0.5%float 1%float
          "market" 1000%float))
  = true.
Proof. vm_compute. reflexivity. Qed.

Lemma sample_naive_amount_not_below_zero :
  ltb (amount (calculateNaiveKellyBet 0.5%float (lit (95 # 100)) 1%float
                                      1000%float))
      (lit 0)
  = false.
Proof. vm_compute. reflexivity. Qed.

Lemma portfolio_roots_never_outside_intervals_witness :
  exists r : PortfolioRoots float,
    loggedRoots (marketWithProbability 0.5%float)
      (constantProductMarket 5000%float 5000%float) (lit (95 # 100)) 1%float
      "market" 1000%float 2000%float = Some r
    /\ not_outside (PrimFloat.mul (optimalBetInitial r) 0.5%float)
                   (PrimFloat.mul (optimalBetInitial r) 2%float)
                   (optimalBet r)
    /\ not_outside (PrimFloat.mul (optimalBetInitial r) 0.5%float)
                   (PrimFloat.mul (optimalBetInitial r) 2%float)
                   (optimalBetHigh r).
Proof.
  destruct (portfolio_roots_never_outside_intervals
              (JS := Float64.float_number) float_ltb_irreflexive
              (marketWithProbability 0.5%float)
              (constantProductMarket 5000%float 5000%float) (lit (95 # 100))
              1%float "market" 1000%float 2000%float eq_refl eq_refl
              sample_naive_amount_not_below_zero)
    as (r & Hr & _ & _ & Hrest).
  exists r. split; [exact Hr|].
  apply Hrest.
  vm_compute in Hr. injection Hr as <-. vm_compute. reflexivity.
Defined.

(** ** Odds conversion in binary64 arithmetic *)

(** C3, counterexample. In binary64 arithmetic the implied probability
    [1e17] converts to the english odds [-1] (the quotient [1e-17] is lost
    in the subtraction of 1), and [-1] converts back to Infinity; [1e15]
    comes back as about [1.0008e15]. *)
Lemma convertOdds_round_trip_fails_in_binary64 :
  convertOdds "impliedProbability" "englishOdds" 1e17%float
    = Returns (-1)%float
  /\ convertOdds "englishOdds" "impliedProbability" (-1)%float
     = Returns PrimFloat.infinity
  /\ convertOdds "impliedProbability" "englishOdds" 1e15%float
     = Returns (-0x1.ffffffffffff7p-1)%float
  /\ convertOdds "englishOdds" "impliedProbability" (-0x1.ffffffffffff7p-1)%float
     = Returns 0x1.c71c71c71c71cp+49%float.
Proof. repeat split; vm_compute; reflexivity. Qed.
